(** * Minesweeper knowledge base: a shallow embedding of [minesweeper.py]

    The development models the three classes of the program:
    [Minesweeper] (the board), [Sentence] (a set of cells and a count) and
    [MinesweeperAI] (the knowledge base), and states the properties of the
    knowledge base over this model.

    Python integers are [Z], Python sets of cells are [gset cell], the list
    [self.knowledge] is a [list Sentence.t] in which a sentence object is
    identified by its index (every [Sentence] copies the set it is given, so
    no two sentences share a cell set).  [set.pop()] removes an arbitrary
    element and raises [KeyError] on an empty set: the element is chosen by
    an oracle ([SetPop]) and the exception is [None] in the [option] monad.
    The order in which [for x in s] visits a set is given by the same
    oracle.  Output written with [print] is not modelled. *)

From stdpp Require Import gmap list fin_sets sorting.

Local Open Scope Z_scope.

(** A board cell [(i, j)]. *)
Abbreviation cell := (Z * Z)%type.

(** [0 <= i < height and 0 <= j < width] *)
Definition in_bounds (height width : Z) (ij : cell) : bool :=
  bool_decide (0 ≤ ij.1 < height) && bool_decide (0 ≤ ij.2 < width).

(** The cells visited by
    [for i in range(c[0] - 1, c[0] + 2): for j in range(c[1] - 1, c[1] + 2)],
    in the order of the two loops. *)
Definition window (c : cell) : list cell :=
  i ← seqZ (c.1 - 1) 3; j ← seqZ (c.2 - 1) 3; [(i, j)].

(** ** The oracle of [set.pop()] and of the iteration over a set

    What the program cannot control about a Python set: which element
    [pop] removes, and in which order a [for] loop visits the elements
    (every element once). *)

Class SetPop := {
  pop_choice : gset cell → cell;
  pop_choice_elem (s : gset cell) : s ≠ ∅ → pop_choice s ∈ s;
  iter_order : gset cell → list cell;
  iter_order_elem (s : gset cell) (x : cell) : x ∈ iter_order s ↔ x ∈ s;
  iter_order_NoDup (s : gset cell) : NoDup (iter_order s)
}.

(** [s.pop()]: the removed element and the set that is left, or [None] for
    the [KeyError] of an empty set. *)
Definition set_pop `{SetPop} (s : gset cell) : option (cell * gset cell) :=
  if decide (s = ∅) then None
  else Some (pop_choice s, s ∖ {[pop_choice s]}).

(** One concrete oracle: the first element of the enumeration of the set. *)
Definition first_choice (s : gset cell) : cell :=
  default (0, 0) (head (elements s)).

(** ** class Minesweeper *)

Module Minesweeper.

Record t := mk {
  height : Z;
  width : Z;
  board : list (list bool)
}.

(** [self.board[i][j]] for indices that were checked to be in range;
    [None] is the [IndexError] of a board with missing rows or columns. *)
Definition board_at (g : t) (ij : cell) : option bool :=
  row ← board g !! Z.to_nat ij.1; row !! Z.to_nat ij.2.

(** The body of the two loops of [nearby_mines], on the running count. *)
Definition nearby_step (g : t) (c : cell) (acc : option Z) (ij : cell)
  : option Z :=
  count ← acc;
  if bool_decide (ij = c) then Some count
  else if in_bounds (height g) (width g) ij
       then b ← board_at g ij; Some (if b : bool then count + 1 else count)
       else Some count.

Definition nearby_mines (g : t) (c : cell) : option Z :=
  foldl (nearby_step g c) (Some 0) (window c).

(** [l[i]] with the negative indices of Python, which count from the end
    of the list; [None] is the [IndexError] of an index out of range. *)
Definition py_index {A} (l : list A) (i : Z) : option A :=
  let k := if decide (i < 0) then i + Z.of_nat (length l) else i in
  if decide (0 ≤ k) then l !! Z.to_nat k else None.

(** [l[i] = x], with the same indices. *)
Definition py_assign {A} (l : list A) (i : Z) (x : A) : option (list A) :=
  let k := if decide (i < 0) then i + Z.of_nat (length l) else i in
  if decide (0 ≤ k < Z.of_nat (length l)) then Some (<[Z.to_nat k := x]> l)
  else None.

(** [is_mine]: [self.board[i][j]] with no check of the indices. *)
Definition is_mine (g : t) (c : cell) : option bool :=
  row ← py_index (board g) c.1; py_index row c.2.

(** The game object: the board with the set [mines] and the set
    [mines_found]. *)
Record game := mk_game {
  grid : t;
  mines : gset cell;
  mines_found : gset cell
}.

(** [won] *)
Definition won (gm : game) : bool :=
  bool_decide (mines_found gm = mines gm).

(** The field without mines that [__init__] builds, row by row and entry
    by entry. *)
Definition empty_row (width : Z) : list bool :=
  foldl (λ row _, row ++ [false]) [] (seqZ 0 width).

Definition empty_board (height width : Z) : list (list bool) :=
  foldl (λ board _, board ++ [empty_row width]) [] (seqZ 0 height).

(** How the loop [while len(self.mines) != mines] can end: it returns, or
    it needs a draw that the list of draws does not hold any more (the loop
    is still running), or [random.randrange] raises [ValueError] for an
    empty range, or an index is out of range. *)
Inductive outcome (A : Type) :=
| Returned (x : A)
| MoreDraws
| ValueError
| IndexError.
Arguments Returned {A} x.
Arguments MoreDraws {A}.
Arguments ValueError {A}.
Arguments IndexError {A}.

(** The loop that places the mines.  The values of [random.randrange] are
    taken from the list [draws], one pair [(i, j)] for each round. *)
Fixpoint add_mines (height width mines : Z) (draws : list cell)
         (board : list (list bool)) (placed : gset cell)
  : outcome (list (list bool) * gset cell) :=
  if decide (Z.of_nat (size placed) = mines) then Returned (board, placed)
  else if decide (height ≤ 0 ∨ width ≤ 0) then ValueError
  else
    match draws with
    | [] => MoreDraws
    | ij :: draws' =>
        match row ← py_index board ij.1; py_index row ij.2 with
        | None => IndexError
        | Some true => add_mines height width mines draws' board placed
        | Some false =>
            match row ← py_index board ij.1;
                  row' ← py_assign row ij.2 true;
                  py_assign board ij.1 row' with
            | None => IndexError
            | Some board' =>
                add_mines height width mines draws' board'
                          ({[ij]} ∪ placed)
            end
        end
    end.

(** [__init__] *)
Definition init (height width mines : Z) (draws : list cell)
  : outcome game :=
  match add_mines height width mines draws (empty_board height width) ∅ with
  | Returned (board, placed) =>
      Returned (mk_game (mk height width board) placed ∅)
  | MoreDraws => MoreDraws
  | ValueError => ValueError
  | IndexError => IndexError
  end.

(** The board has [height] rows of [width] entries. *)
Definition well_formed (g : t) : Prop :=
  length (board g) = Z.to_nat (height g)
  ∧ Forall (λ row, length row = Z.to_nat (width g)) (board g).

End Minesweeper.

(** ** class Sentence *)

Module Sentence.

Record t := mk {
  cells : gset cell;
  count : Z
}.

Definition get_set (s : t) : gset cell := cells s.
Definition get_set_length (s : t) : nat := size (cells s).
Definition get_count (s : t) : Z := count s.

(** [__eq__] *)
Definition eqb (s other : t) : bool :=
  bool_decide (cells s = cells other) && bool_decide (count s = count other).

Definition known_mines (s : t) : option (gset cell) :=
  let cell := cells s in
  if decide (Z.of_nat (size cell) = count s) then Some cell else None.

Definition known_safes (s : t) : option (gset cell) :=
  let cell := cells s in
  if decide (count s = 0) then Some cell else None.

Definition mark_mine (c : cell) (s : t) : t :=
  if decide (c ∈ cells s)
  then mk (cells s ∖ {[c]}) (count s - 1)
  else s.

Definition mark_safe (c : cell) (s : t) : t :=
  if decide (c ∈ cells s)
  then mk (cells s ∖ {[c]}) (count s)
  else s.

End Sentence.

(** ** class MinesweeperAI *)

Module MinesweeperAI.

Record t := mk {
  height : Z;
  width : Z;
  moves_made : gset cell;
  mines : gset cell;
  safes : gset cell;
  knowledge : list Sentence.t
}.

(** [__init__] *)
Definition init (height width : Z) : t := mk height width ∅ ∅ ∅ [].

Definition set_knowledge (kn : list Sentence.t) (ai : t) : t :=
  mk (height ai) (width ai) (moves_made ai) (mines ai) (safes ai) kn.

Definition mark_mine (c : cell) (ai : t) : t :=
  mk (height ai) (width ai) (moves_made ai) ({[c]} ∪ mines ai) (safes ai)
     (Sentence.mark_mine c <$> knowledge ai).

Definition mark_safe (c : cell) (ai : t) : t :=
  mk (height ai) (width ai) (moves_made ai) (mines ai) ({[c]} ∪ safes ai)
     (Sentence.mark_safe c <$> knowledge ai).

(** The body of the two loops that build [mangoes] (lines 207-213). *)
Definition add_mango (ai : t) (c : cell) (mangoes : gset cell) (ij : cell)
  : gset cell :=
  if bool_decide (ij = c) || bool_decide (ij ∈ moves_made ai)
     || bool_decide (ij ∈ safes ai)
  then mangoes
  else if in_bounds (height ai) (width ai) ij
       then {[ij]} ∪ mangoes
       else mangoes.

Definition mangoes (ai : t) (c : cell) : gset cell :=
  foldl (add_mango ai c) ∅ (window c).

Section pop.
Context `{SetPop}.

(** [self.knowledge[k].get_set().pop()]: the sentence at index [k]
    loses the popped cell, its count is not touched. *)
Definition pop_cell (k : nat) (ai : t) : option (cell * t) :=
  e ← knowledge ai !! k;
  '(c, rest) ← set_pop (Sentence.get_set e);
  Some (c, set_knowledge
             (<[k := Sentence.mk rest (Sentence.count e)]> (knowledge ai))
             ai).

(** [for cell in range(size): (i,j) = e.get_set().pop();
    self.mark_safe((i,j))] *)
Fixpoint drain_safe (k : nat) (size : nat) (ai : t) : option t :=
  match size with
  | O => Some ai
  | S size' =>
      '(c, ai1) ← pop_cell k ai;
      drain_safe k size' (mark_safe c ai1)
  end.

(** [for cell in range(size): the_cell = e.get_set().pop();
    self.mark_mine(the_cell)] *)
Fixpoint drain_mine (k : nat) (size : nat) (ai : t) : option t :=
  match size with
  | O => Some ai
  | S size' =>
      '(c, ai1) ← pop_cell k ai;
      drain_mine k size' (mark_mine c ai1)
  end.

(** The body of the loop [for e in self.knowledge] of lines 223-235,
    for the sentence at index [k]. *)
Definition resolve_sentence (k : nat) (ai : t) : option t :=
  e ← knowledge ai !! k;
  if decide (Sentence.get_count e = 0)
  then drain_safe k (Sentence.get_set_length e) ai
  else if decide (Sentence.get_count e
                  = Z.of_nat (Sentence.get_set_length e))
       then drain_mine k (Sentence.get_set_length e) ai
       else Some ai.

(** The loop of lines 223-235 over the indices of [self.knowledge]; the
    list is not resized while the loop runs. *)
Definition resolve_all (ai : t) : option t :=
  foldl (λ acc k, ai' ← acc; resolve_sentence k ai') (Some ai)
        (seq 0 (length (knowledge ai))).

(** [for cell in sentence.get_set(): if self.mines.__contains__(cell):
    count += 1] *)
Definition count_known_mines (ai : t) (sentence : Sentence.t) : Z :=
  foldl (λ count c, if bool_decide (c ∈ mines ai) then count + 1
                    else count)
        0 (elements (Sentence.get_set sentence)).

(** The loop of lines 255-262. *)
Fixpoint drain_infer (k : nat) (size : nat) (ai : t) : option t :=
  match size with
  | O => Some ai
  | S size' =>
      '(c, ai1) ← pop_cell k ai;
      if bool_decide (c ∈ mines ai1) || bool_decide (c ∈ moves_made ai1)
      then drain_infer k size' ai1
      else drain_infer k size' (mark_safe c ai1)
  end.

(** The body of the loop [for sentence in self.knowledge] of lines
    245-263, for the sentence at index [k]. *)
Definition infer_sentence (k : nat) (ai : t) : option t :=
  sentence ← knowledge ai !! k;
  if decide (Sentence.get_set_length sentence = 0%nat) then Some ai
  else
    let count := count_known_mines ai sentence in
    if decide (Sentence.count sentence = count)
    then drain_infer k (Sentence.get_set_length sentence) ai
    else Some ai.

Definition infer_all (ai : t) : option t :=
  foldl (λ acc k, ai' ← acc; infer_sentence k ai') (Some ai)
        (seq 0 (length (knowledge ai))).

Definition add_knowledge (c : cell) (count : Z) (ai : t) : option t :=
  let mangoes := mangoes ai c in
  let ai1 :=
    mk (height ai) (width ai) ({[c]} ∪ moves_made ai) (mines ai)
       (safes ai) (knowledge ai) in
  let ai2 := mark_safe c ai1 in
  let ai3 := set_knowledge (knowledge ai2 ++ [Sentence.mk mangoes count])
                           ai2 in
  ai4 ← resolve_all ai3;
  infer_all ai4.

End pop.

(** [for move in self.safes]: the first move, in the order in which the
    loop visits the set, that was not made yet. *)
Definition make_safe_move `{SetPop} (ai : t) : option cell :=
  head (filter (λ move, move ∉ moves_made ai) (iter_order (safes ai))).

(** [for i in range(self.width - 1): for j in range(self.height - 1)]:
    the first cell of the scan that is neither a known mine nor a move
    made; [None] when the loops end without [return]. *)
Definition make_random_move (ai : t) : option cell :=
  head (filter (λ ij, ¬ (ij ∈ mines ai ∨ ij ∈ moves_made ai))
               (i ← seqZ 0 (width ai - 1);
                j ← seqZ 0 (height ai - 1); [(i, j)])).

(** *** Sequences of calls on one solver *)

Inductive op :=
| AddKnowledge (c : cell) (count : Z)
| MarkSafe (c : cell)
| MarkMine (c : cell)
| MakeSafeMove
| MakeRandomMove.

Definition step `{SetPop} (o : op) (ai : t) : option t :=
  match o with
  | AddKnowledge c count => add_knowledge c count ai
  | MarkSafe c => Some (mark_safe c ai)
  | MarkMine c => Some (mark_mine c ai)
  | MakeSafeMove => let _ := make_safe_move ai in Some ai
  | MakeRandomMove => let _ := make_random_move ai in Some ai
  end.

Definition run `{SetPop} (ops : list op) (ai : t) : option t :=
  foldl (λ acc o, ai' ← acc; step o ai') (Some ai) ops.

(** *** What the loops amount to, without the oracle

    The loops that drain a sentence pop its cells in an order that the
    program does not control.  The definitions below describe the state
    after such a loop by operations on sets, in which no order occurs;
    the lemmas [drain_safe_all_safe], [drain_mine_all_mine] and
    [drain_infer_all_inferred] show that the loops compute them for every
    oracle. *)

(** After [drain_safe] on a sentence whose cells are [X]. *)
Definition all_safe (X : gset cell) (ai : t) : t :=
  mk (height ai) (width ai) (moves_made ai) (mines ai) (X ∪ safes ai)
     ((λ s, Sentence.mk (Sentence.cells s ∖ X) (Sentence.count s))
        <$> knowledge ai).

(** After [drain_mine] on the sentence at index [k], whose cells are [X]:
    the other sentences lose the cells of [X] they hold and one unit of
    count for each; the sentence itself keeps its count. *)
Definition all_mine (k : nat) (X : gset cell) (ai : t) : t :=
  mk (height ai) (width ai) (moves_made ai) (X ∪ mines ai) (safes ai)
     (imap (λ j s,
              if decide (j = k)
              then Sentence.mk (Sentence.cells s ∖ X) (Sentence.count s)
              else Sentence.mk (Sentence.cells s ∖ X)
                     (Sentence.count s
                      - Z.of_nat (size (Sentence.cells s ∩ X))))
           (knowledge ai)).

(** After [drain_infer] on the sentence at index [k], whose cells are
    [X]: the cells of [X] that are neither known mines nor moves made are
    marked safe. *)
Definition all_inferred (k : nat) (X : gset cell) (ai : t) : t :=
  let Y := X ∖ (mines ai ∪ moves_made ai) in
  mk (height ai) (width ai) (moves_made ai) (mines ai) (Y ∪ safes ai)
     (imap (λ j s,
              if decide (j = k)
              then Sentence.mk (Sentence.cells s ∖ X) (Sentence.count s)
              else Sentence.mk (Sentence.cells s ∖ Y) (Sentence.count s))
           (knowledge ai)).

Definition resolved (k : nat) (ai : t) : t :=
  match knowledge ai !! k with
  | Some e =>
      if decide (Sentence.count e = 0) then all_safe (Sentence.cells e) ai
      else if decide (Sentence.count e
                      = Z.of_nat (size (Sentence.cells e)))
           then all_mine k (Sentence.cells e) ai
           else ai
  | None => ai
  end.

Definition resolved_all (ai : t) : t :=
  foldl (λ ai' k, resolved k ai') ai (seq 0 (length (knowledge ai))).

(** The number of cells of the sentence that are known mines. *)
Definition known_in (ai : t) (sentence : Sentence.t) : Z :=
  Z.of_nat (size (Sentence.cells sentence ∩ mines ai)).

Definition inferred (k : nat) (ai : t) : t :=
  match knowledge ai !! k with
  | Some e =>
      if decide (size (Sentence.cells e) = 0%nat) then ai
      else if decide (Sentence.count e = known_in ai e)
           then all_inferred k (Sentence.cells e) ai
           else ai
  | None => ai
  end.

Definition inferred_all (ai : t) : t :=
  foldl (λ ai' k, inferred k ai') ai (seq 0 (length (knowledge ai))).

(** The state in which [add_knowledge] starts its loops: the move is
    recorded, the cell is marked safe and the new sentence is appended. *)
Definition observed (c : cell) (count : Z) (ai : t) : t :=
  mk (height ai) (width ai) ({[c]} ∪ moves_made ai) (mines ai)
     ({[c]} ∪ safes ai)
     ((Sentence.mark_safe c <$> knowledge ai)
        ++ [Sentence.mk (mangoes ai c) count]).

Definition knowledge_added (c : cell) (count : Z) (ai : t) : t :=
  inferred_all (resolved_all (observed c count ai)).

Definition stepped (o : op) (ai : t) : t :=
  match o with
  | AddKnowledge c count => knowledge_added c count ai
  | MarkSafe c => mark_safe c ai
  | MarkMine c => mark_mine c ai
  | MakeSafeMove | MakeRandomMove => ai
  end.

Definition ran (ops : list op) (ai : t) : t :=
  foldl (λ ai' o, stepped o ai') ai ops.

End MinesweeperAI.

Import MinesweeperAI.

(** ** Runs of the solver against a board *)

(** The number of calls of [add_knowledge] in a sequence of calls. *)
Definition is_add_knowledge (o : op) : bool :=
  match o with AddKnowledge _ _ => true | _ => false end.

Definition add_knowledge_calls (ops : list op) : nat :=
  length (filter (λ o, is_add_knowledge o = true) ops).

(** The cell lies on the board and holds a mine. *)
Definition hidden_mine (g : Minesweeper.t) (ij : cell) : Prop :=
  in_bounds (Minesweeper.height g) (Minesweeper.width g) ij = true
  ∧ Minesweeper.board_at g ij = Some true.

#[export] Instance hidden_mine_dec g ij : Decision (hidden_mine g ij).
Proof. unfold hidden_mine. apply _. Defined.

(** A call that tells the solver the truth about the board [g]: a cell is
    observed with the count the board reports and is not a mine itself, a
    cell marked safe is not a mine, a cell marked as a mine is one. *)
Definition truthful (g : Minesweeper.t) (o : op) : Prop :=
  match o with
  | AddKnowledge c count =>
      ¬ hidden_mine g c ∧ Minesweeper.nearby_mines g c = Some count
  | MarkSafe c => ¬ hidden_mine g c
  | MarkMine c => hidden_mine g c
  | MakeSafeMove | MakeRandomMove => True
  end.

#[export] Instance truthful_dec g o : Decision (truthful g o).
Proof. destruct o; simpl; apply _. Defined.

(** ** Invariants of the knowledge base *)

(** No sentence holds a cell that is known to be safe. *)
Definition safes_folded (ai : t) : Prop :=
  ∀ s, s ∈ knowledge ai → Sentence.cells s ## safes ai.

(** What the solver knows is true of the board [g]: the solver has at
    least the rows and columns of the board, no safe cell and no move made
    is a mine, every known mine is one, and every sentence that still has
    cells counts the mines among them. *)
Record sound (g : Minesweeper.t) (ai : t) : Prop := {
  sound_height : Minesweeper.height g ≤ height ai;
  sound_width : Minesweeper.width g ≤ width ai;
  sound_safes : ∀ c, c ∈ safes ai → ¬ hidden_mine g c;
  sound_moves : ∀ c, c ∈ moves_made ai → ¬ hidden_mine g c;
  sound_mines : ∀ c, c ∈ mines ai → hidden_mine g c;
  sound_knowledge : ∀ s, s ∈ knowledge ai →
    Sentence.cells s = ∅
    ∨ Sentence.count s
      = Z.of_nat (size (filter (hidden_mine g) (Sentence.cells s)))
}.

(** While [add_knowledge] works through the sentences before the new one:
    the state is sound, the sentence at index [n] has count [0] and, with
    [safes], covers [M]. *)
Definition opening (g : Minesweeper.t) (n : nat) (M : gset cell) (a : t)
  : Prop :=
  sound g a
  ∧ ∃ e, knowledge a !! n = Some e ∧ Sentence.count e = 0
         ∧ M ⊆ safes a ∪ Sentence.cells e.

(** The same for a sentence at index [n] that has as many cells as its
    count and, with [mines], covers [M]. *)
Definition flagging (g : Minesweeper.t) (n : nat) (M : gset cell) (a : t)
  : Prop :=
  sound g a
  ∧ ∃ e, knowledge a !! n = Some e
         ∧ Sentence.count e = Z.of_nat (size (Sentence.cells e))
         ∧ M ⊆ mines a ∪ Sentence.cells e.

(** ** The board while [__init__] places the mines *)

(** The board has [height] rows of [width] entries, the cells placed so far
    lie on it, and an entry is [True] exactly at the cells placed. *)
Definition board_holds (height width : Z) (board : list (list bool))
           (placed : gset cell) : Prop :=
  Minesweeper.well_formed (Minesweeper.mk height width board)
  ∧ (∀ c, c ∈ placed → in_bounds height width c = true)
  ∧ (∀ c, in_bounds height width c = true →
          Minesweeper.board_at (Minesweeper.mk height width board) c
          = Some (bool_decide (c ∈ placed))).

(** All cells of a board, row by row. *)
Definition board_cells (height width : Z) : list cell :=
  i ← seqZ 0 height; j ← seqZ 0 width; [(i, j)].

(** A sentence that neither loop of [add_knowledge] acts on, when [known]
    are the known mines: it has no cells, or its count is neither [0], nor
    the number of its cells, nor the number of its cells that are known
    mines. *)
Definition idle (known : gset cell) (s : Sentence.t) : Prop :=
  Sentence.cells s = ∅
  ∨ (Sentence.count s ≠ 0
     ∧ Sentence.count s ≠ Z.of_nat (size (Sentence.cells s))
     ∧ Sentence.count s ≠ Z.of_nat (size (Sentence.cells s ∩ known))).

#[export] Instance idle_dec known s : Decision (idle known s).
Proof. unfold idle. apply _. Defined.

(** ** Relations between states, used to say what calls do *)

(** [x] comes before [c] in the scan of [make_random_move]: a smaller first
    component, or the same first and a smaller second component. *)
Definition scan_before (x c : cell) : Prop :=
  x.1 < c.1 ∨ (x.1 = c.1 ∧ x.2 < c.2).

(** The cells that a sequence of calls passes to [add_knowledge]. *)
Definition observed_cells (ops : list op) : gset cell :=
  list_to_set
    (omap (λ o, match o with AddKnowledge c _ => Some c | _ => None end) ops).

(** The sentence [s'] is a later state of the sentence [s]: it has lost
    cells, its count has not grown, and a sentence without cells has not
    changed at all. *)
Definition shrinks (s s' : Sentence.t) : Prop :=
  Sentence.cells s' ⊆ Sentence.cells s
  ∧ Sentence.count s' ≤ Sentence.count s
  ∧ (Sentence.cells s = ∅ → s' = s).

(** Every cell of every sentence lies on the board of the solver. *)
Definition on_board (ai : t) : Prop :=
  ∀ s, s ∈ knowledge ai →
       ∀ x, x ∈ Sentence.cells s → in_bounds (height ai) (width ai) x = true.

(** The cells that a sequence of calls passes to [mark_mine], and the cells
    it passes to [add_knowledge] or [mark_safe]. *)
Definition mine_arguments (ops : list op) : gset cell :=
  list_to_set
    (omap (λ o, match o with MarkMine c => Some c | _ => None end) ops).

Definition safe_arguments (ops : list op) : gset cell :=
  list_to_set
    (omap (λ o, match o with
                | AddKnowledge c _ | MarkSafe c => Some c
                | _ => None
                end) ops).

(** The sentences lie on the board, every known mine lies on the board or
    in [Em], and every safe cell lies on the board or in [Es]. *)
Definition confined (Em Es : gset cell) (ai : t) : Prop :=
  on_board ai
  ∧ (∀ x, x ∈ mines ai →
          in_bounds (height ai) (width ai) x = true ∨ x ∈ Em)
  ∧ (∀ x, x ∈ safes ai →
          in_bounds (height ai) (width ai) x = true ∨ x ∈ Es).

(** * Properties *)

(** ** Sets of cells *)

Lemma first_choice_elem (s : gset cell) : s ≠ ∅ → first_choice s ∈ s.
Proof.
  intros Hne. unfold first_choice.
  destruct (elements s) as [|x l] eqn:Hel.
  - apply elements_empty_inv in Hel. apply leibniz_equiv in Hel. done.
  - simpl. apply elem_of_elements. rewrite Hel. left.
Qed.

#[export] Instance first_pop : SetPop :=
  {| pop_choice := first_choice;
     pop_choice_elem := first_choice_elem;
     iter_order := elements;
     iter_order_elem := λ s x, elem_of_elements s x;
     iter_order_NoDup := NoDup_elements |}.

Lemma size_pop (X : gset cell) (c : cell) (n : nat) :
  c ∈ X → size X = S n → size (X ∖ {[c]}) = n.
Proof.
  intros Hc Hn.
  assert (size X = (size (X ∖ {[c]}) + 1)%nat); [|lia].
  rewrite <- (size_singleton (C:=gset cell) c).
  rewrite <- size_union by set_solver.
  f_equal. apply set_eq. intros x.
  destruct (decide (x = c)); set_solver.
Qed.

Lemma size_inter_pop (A X : gset cell) (c : cell) :
  c ∈ A → c ∈ X →
  size (A ∩ X) = S (size ((A ∖ {[c]}) ∩ (X ∖ {[c]}))).
Proof.
  intros HA HX.
  assert (A ∩ X = {[c]} ∪ ((A ∖ {[c]}) ∩ (X ∖ {[c]}))) as ->.
  { apply set_eq. intros x. destruct (decide (x = c)); set_solver. }
  rewrite size_union by set_solver. by rewrite size_singleton.
Qed.

(** ** Sentences *)

Lemma sentence_eq (s1 s2 : Sentence.t) :
  Sentence.cells s1 = Sentence.cells s2 →
  Sentence.count s1 = Sentence.count s2 → s1 = s2.
Proof. destruct s1, s2; simpl; intros; by subst. Qed.

Lemma sentence_mark_safe_cells c s :
  Sentence.cells (Sentence.mark_safe c s) = Sentence.cells s ∖ {[c]}.
Proof. unfold Sentence.mark_safe. case_decide; simpl; set_solver. Qed.

Lemma sentence_mark_safe_count c s :
  Sentence.count (Sentence.mark_safe c s) = Sentence.count s.
Proof. unfold Sentence.mark_safe. by case_decide. Qed.

Lemma sentence_mark_mine_cells c s :
  Sentence.cells (Sentence.mark_mine c s) = Sentence.cells s ∖ {[c]}.
Proof. unfold Sentence.mark_mine. case_decide; simpl; set_solver. Qed.

Lemma sentence_mark_mine_count c s :
  Sentence.count (Sentence.mark_mine c s)
  = if decide (c ∈ Sentence.cells s) then Sentence.count s - 1
    else Sentence.count s.
Proof. unfold Sentence.mark_mine. by case_decide. Qed.

(** ** The loops of [add_knowledge] compute their summaries *)

Lemma ai_eq (a b : t) :
  height a = height b → width a = width b →
  moves_made a = moves_made b → mines a = mines b → safes a = safes b →
  knowledge a = knowledge b → a = b.
Proof. destruct a, b; simpl; intros; by subst. Qed.

Section loops.
Context `{SetPop}.

Lemma pop_cell_nonempty k ai e :
  knowledge ai !! k = Some e → Sentence.cells e ≠ ∅ →
  ∃ c, c ∈ Sentence.cells e ∧
       pop_cell k ai
       = Some (c, set_knowledge
                    (<[k := Sentence.mk (Sentence.cells e ∖ {[c]})
                                        (Sentence.count e)]> (knowledge ai))
                    ai).
Proof.
  intros Hk Hne. exists (pop_choice (Sentence.cells e)).
  split; [by apply pop_choice_elem|].
  unfold pop_cell, set_pop, Sentence.get_set. rewrite Hk. simpl.
  by rewrite decide_False.
Qed.

Lemma drain_safe_all_safe n k ai e :
  knowledge ai !! k = Some e → size (Sentence.cells e) = n →
  drain_safe k n ai = Some (all_safe (Sentence.cells e) ai).
Proof.
  revert ai e. induction n as [|n IH]; intros ai e Hk Hn.
  - apply size_empty_inv, leibniz_equiv in Hn. simpl. f_equal.
    apply ai_eq; simpl; try done; [set_solver|].
    rewrite Hn. apply list_eq. intros j. rewrite list_lookup_fmap.
    destruct (knowledge ai !! j) as [s|]; simpl; [|done].
    f_equal. apply sentence_eq; simpl; [set_solver|done].
  - assert (Sentence.cells e ≠ ∅) as Hne.
    { intros He. rewrite He, size_empty in Hn. lia. }
    destruct (pop_cell_nonempty k ai e Hk Hne) as (c & Hc & Hpop).
    simpl. rewrite Hpop. simpl.
    pose proof (lookup_lt_Some _ _ _ Hk) as Hlt.
    set (e' := Sentence.mk (Sentence.cells e ∖ {[c]}) (Sentence.count e)).
    rewrite (IH _ (Sentence.mark_safe c e')); cycle 1.
    { simpl. by rewrite list_lookup_fmap, list_lookup_insert_eq. }
    { rewrite sentence_mark_safe_cells. simpl.
      replace (Sentence.cells e ∖ {[c]} ∖ {[c]})
        with (Sentence.cells e ∖ {[c]}) by set_solver.
      by apply size_pop. }
    f_equal. apply ai_eq; simpl; try done.
    + rewrite sentence_mark_safe_cells. simpl. apply set_eq. intros x.
      destruct (decide (x = c)); set_solver.
    + apply list_eq. intros j. rewrite !list_lookup_fmap.
      destruct (decide (j = k)) as [->|Hjk].
      * rewrite list_lookup_insert_eq, Hk by done. simpl. f_equal.
        apply sentence_eq; simpl; [|by rewrite sentence_mark_safe_count].
        rewrite !sentence_mark_safe_cells. simpl. set_solver.
      * rewrite list_lookup_insert_ne by done.
        destruct (knowledge ai !! j) as [s|]; simpl; [|done]. f_equal.
        apply sentence_eq; simpl; [|by rewrite sentence_mark_safe_count].
        rewrite !sentence_mark_safe_cells. simpl. apply set_eq. intros x.
        destruct (decide (x = c)); set_solver.
Qed.

Lemma drain_mine_all_mine n k ai e :
  knowledge ai !! k = Some e → size (Sentence.cells e) = n →
  drain_mine k n ai = Some (all_mine k (Sentence.cells e) ai).
Proof.
  revert ai e. induction n as [|n IH]; intros ai e Hk Hn.
  - apply size_empty_inv, leibniz_equiv in Hn. simpl. f_equal.
    apply ai_eq; simpl; try done; [set_solver|].
    rewrite Hn. apply list_eq. intros j. rewrite list_lookup_imap.
    destruct (knowledge ai !! j) as [s|]; simpl; [|done].
    f_equal. case_decide; apply sentence_eq; simpl; try set_solver.
    replace (Sentence.cells s ∩ ∅) with (∅ : gset cell) by set_solver.
    rewrite size_empty. lia.
  - assert (Sentence.cells e ≠ ∅) as Hne.
    { intros He. rewrite He, size_empty in Hn. lia. }
    destruct (pop_cell_nonempty k ai e Hk Hne) as (c & Hc & Hpop).
    simpl. rewrite Hpop. simpl.
    pose proof (lookup_lt_Some _ _ _ Hk) as Hlt.
    set (e' := Sentence.mk (Sentence.cells e ∖ {[c]}) (Sentence.count e)).
    assert (Sentence.cells (Sentence.mark_mine c e')
            = Sentence.cells e ∖ {[c]}) as Hcells.
    { rewrite sentence_mark_mine_cells. simpl. set_solver. }
    rewrite (IH _ (Sentence.mark_mine c e')); cycle 1.
    { simpl. by rewrite list_lookup_fmap, list_lookup_insert_eq. }
    { rewrite Hcells. by apply size_pop. }
    rewrite Hcells. f_equal. apply ai_eq; simpl; try done.
    + apply set_eq. intros x. destruct (decide (x = c)); set_solver.
    + apply list_eq. intros j.
      rewrite !list_lookup_imap, list_lookup_fmap.
      destruct (decide (j = k)) as [->|Hjk].
      * rewrite list_lookup_insert_eq, Hk by done. simpl. f_equal.
        rewrite ?decide_True by done.
        apply sentence_eq; simpl.
        -- rewrite Hcells. set_solver.
        -- rewrite sentence_mark_mine_count. simpl.
           rewrite decide_False; [done|set_solver].
      * rewrite list_lookup_insert_ne by done.
        destruct (knowledge ai !! j) as [s|]; simpl; [|done]. f_equal.
        rewrite ?decide_False by done.
        apply sentence_eq; simpl.
        -- rewrite sentence_mark_mine_cells. apply set_eq. intros x.
           destruct (decide (x = c)); set_solver.
        -- rewrite sentence_mark_mine_count, sentence_mark_mine_cells.
           case_decide as Hin.
           ++ rewrite (size_inter_pop (Sentence.cells s) (Sentence.cells e) c)
                by done. lia.
           ++ replace (Sentence.cells s ∖ {[c]}
                       ∩ (Sentence.cells e ∖ {[c]}))
                with (Sentence.cells s ∩ Sentence.cells e); [done|].
              apply set_eq. intros x. destruct (decide (x = c)); set_solver.
Qed.

Lemma drain_infer_all_inferred n k ai e :
  knowledge ai !! k = Some e → size (Sentence.cells e) = n →
  drain_infer k n ai = Some (all_inferred k (Sentence.cells e) ai).
Proof.
  revert ai e. induction n as [|n IH]; intros ai e Hk Hn.
  - apply size_empty_inv, leibniz_equiv in Hn. simpl. f_equal.
    unfold all_inferred. apply ai_eq; simpl; try done; [set_solver|].
    rewrite Hn. apply list_eq. intros j. rewrite list_lookup_imap.
    destruct (knowledge ai !! j) as [s|]; simpl; [|done].
    f_equal. case_decide; apply sentence_eq; simpl; set_solver.
  - assert (Sentence.cells e ≠ ∅) as Hne.
    { intros He. rewrite He, size_empty in Hn. lia. }
    destruct (pop_cell_nonempty k ai e Hk Hne) as (c & Hc & Hpop).
    simpl. rewrite Hpop. simpl.
    pose proof (lookup_lt_Some _ _ _ Hk) as Hlt.
    set (e' := Sentence.mk (Sentence.cells e ∖ {[c]}) (Sentence.count e)).
    destruct (bool_decide (c ∈ mines ai) || bool_decide (c ∈ moves_made ai))
      eqn:Hknown.
    + apply orb_true_iff in Hknown.
      rewrite !bool_decide_eq_true in Hknown.
      rewrite (IH _ e'); cycle 1.
      { simpl. by rewrite list_lookup_insert_eq. }
      { by apply size_pop. }
      f_equal. unfold all_inferred. apply ai_eq; simpl; try done.
      * set_solver.
      * apply list_eq. intros j. rewrite !list_lookup_imap.
        destruct (decide (j = k)) as [->|Hjk].
        -- rewrite list_lookup_insert_eq, Hk by done. simpl. f_equal.
           rewrite ?decide_True by done.
           apply sentence_eq; simpl; set_solver.
        -- rewrite list_lookup_insert_ne by done.
           destruct (knowledge ai !! j) as [s|]; simpl; [|done]. f_equal.
           rewrite ?decide_False by done.
           apply sentence_eq; simpl; set_solver.
    + apply orb_false_iff in Hknown.
      rewrite !bool_decide_eq_false in Hknown. destruct Hknown as [Hm Hv].
      assert (Sentence.cells (Sentence.mark_safe c e')
              = Sentence.cells e ∖ {[c]}) as Hcells.
      { rewrite sentence_mark_safe_cells. simpl. set_solver. }
      rewrite (IH _ (Sentence.mark_safe c e')); cycle 1.
      { simpl. by rewrite list_lookup_fmap, list_lookup_insert_eq. }
      { rewrite Hcells. by apply size_pop. }
      rewrite Hcells. f_equal. unfold all_inferred.
      apply ai_eq; simpl; try done.
      * apply set_eq. intros x. destruct (decide (x = c)); set_solver.
      * apply list_eq. intros j.
        rewrite !list_lookup_imap, list_lookup_fmap.
        destruct (decide (j = k)) as [->|Hjk].
        -- rewrite list_lookup_insert_eq, Hk by done. simpl. f_equal.
           rewrite ?decide_True by done.
           apply sentence_eq; simpl;
             [|by rewrite sentence_mark_safe_count].
           rewrite Hcells. set_solver.
        -- rewrite list_lookup_insert_ne by done.
           destruct (knowledge ai !! j) as [s|]; simpl; [|done]. f_equal.
           rewrite ?decide_False by done.
           apply sentence_eq; simpl;
             [|by rewrite sentence_mark_safe_count].
           rewrite sentence_mark_safe_cells. apply set_eq. intros x.
           destruct (decide (x = c)); set_solver.
Qed.

Lemma count_fold_filter (P : cell → Prop) `{!∀ x, Decision (P x)}
      (l : list cell) (a : Z) :
  foldl (λ count c, if bool_decide (P c) then count + 1 else count) a l
  = a + Z.of_nat (length (filter P l)).
Proof.
  revert a. induction l as [|x l IH]; intros a; simpl; [lia|].
  rewrite IH, filter_cons. case_bool_decide.
  - rewrite decide_True by done. simpl. lia.
  - by rewrite decide_False.
Qed.

Lemma count_known_mines_known_in ai sentence :
  count_known_mines ai sentence = known_in ai sentence.
Proof.
  unfold count_known_mines, known_in, Sentence.get_set.
  rewrite (count_fold_filter (λ c, c ∈ mines ai)).
  rewrite Z.add_0_l. f_equal.
  rewrite <- (size_list_to_set (C:=gset cell))
    by apply NoDup_filter, NoDup_elements.
  f_equal. apply set_eq. intros x.
  rewrite elem_of_list_to_set, list_elem_of_filter, elem_of_elements.
  set_solver.
Qed.

Lemma resolve_sentence_resolved k ai :
  (k < length (knowledge ai))%nat →
  resolve_sentence k ai = Some (resolved k ai).
Proof.
  intros Hlt. destruct (lookup_lt_is_Some_2 _ _ Hlt) as [e He].
  unfold resolve_sentence, resolved, Sentence.get_count,
    Sentence.get_set_length.
  rewrite He. simpl. repeat case_decide; try done.
  - by apply drain_safe_all_safe.
  - by apply drain_mine_all_mine.
Qed.

Lemma infer_sentence_inferred k ai :
  (k < length (knowledge ai))%nat →
  infer_sentence k ai = Some (inferred k ai).
Proof.
  intros Hlt. destruct (lookup_lt_is_Some_2 _ _ Hlt) as [e He].
  unfold infer_sentence, inferred, Sentence.get_set_length.
  rewrite He. simpl. rewrite count_known_mines_known_in.
  repeat case_decide; try done.
  by apply drain_infer_all_inferred.
Qed.

End loops.

(** The loops never change the number of sentences. *)

Lemma all_safe_length X ai :
  length (knowledge (all_safe X ai)) = length (knowledge ai).
Proof. simpl. by rewrite length_fmap. Qed.

Lemma all_mine_length k X ai :
  length (knowledge (all_mine k X ai)) = length (knowledge ai).
Proof. simpl. by rewrite length_imap. Qed.

Lemma all_inferred_length k X ai :
  length (knowledge (all_inferred k X ai)) = length (knowledge ai).
Proof. simpl. by rewrite length_imap. Qed.

Lemma resolved_length k ai :
  length (knowledge (resolved k ai)) = length (knowledge ai).
Proof.
  unfold resolved. destruct (knowledge ai !! k); [|done].
  repeat case_decide;
    auto using all_safe_length, all_mine_length.
Qed.

Lemma inferred_length k ai :
  length (knowledge (inferred k ai)) = length (knowledge ai).
Proof.
  unfold inferred. destruct (knowledge ai !! k); [|done].
  repeat case_decide; auto using all_inferred_length.
Qed.

Lemma foldl_length (f : nat → t → t) (ks : list nat) ai :
  (∀ k a, length (knowledge (f k a)) = length (knowledge a)) →
  length (knowledge (foldl (λ a k, f k a) ai ks)) = length (knowledge ai).
Proof.
  intros Hf. revert ai. induction ks as [|k ks IH]; intros ai; simpl; [done|].
  by rewrite IH, Hf.
Qed.

Lemma resolved_all_length ai :
  length (knowledge (resolved_all ai)) = length (knowledge ai).
Proof. apply foldl_length, resolved_length. Qed.

Lemma inferred_all_length ai :
  length (knowledge (inferred_all ai)) = length (knowledge ai).
Proof. apply foldl_length, inferred_length. Qed.

Lemma observed_length c count ai :
  length (knowledge (observed c count ai)) = S (length (knowledge ai)).
Proof. simpl. rewrite length_app, length_fmap. simpl. lia. Qed.

Lemma knowledge_added_length c count ai :
  length (knowledge (knowledge_added c count ai))
  = S (length (knowledge ai)).
Proof.
  unfold knowledge_added.
  by rewrite inferred_all_length, resolved_all_length, observed_length.
Qed.

Section calls.
Context `{SetPop}.

Lemma foldl_sentences (f : nat → t → option t) (g : nat → t → t)
      (ks : list nat) ai :
  (∀ k a, length (knowledge (g k a)) = length (knowledge a)) →
  (∀ k a, (k < length (knowledge a))%nat → f k a = Some (g k a)) →
  Forall (λ k, (k < length (knowledge ai))%nat) ks →
  foldl (λ acc k, ai' ← acc; f k ai') (Some ai) ks
  = Some (foldl (λ a k, g k a) ai ks).
Proof.
  intros Hg Hf. revert ai.
  induction ks as [|k ks IH]; intros ai Hks; simpl; [done|].
  apply Forall_cons in Hks as [Hk Hks].
  rewrite Hf by done. apply IH. by rewrite Hg.
Qed.

Lemma indices_lt (n : nat) : Forall (λ k, (k < n)%nat) (seq 0 n).
Proof. apply Forall_forall. intros k Hk%elem_of_seq. lia. Qed.

Lemma resolve_all_resolved_all ai :
  resolve_all ai = Some (resolved_all ai).
Proof.
  apply foldl_sentences;
    auto using resolved_length, resolve_sentence_resolved, indices_lt.
Qed.

Lemma infer_all_inferred_all ai :
  infer_all ai = Some (inferred_all ai).
Proof.
  apply foldl_sentences;
    auto using inferred_length, infer_sentence_inferred, indices_lt.
Qed.

(** [add_knowledge] always returns, and its result does not depend on the
    order in which the cells are popped. *)
Lemma add_knowledge_knowledge_added c count ai :
  add_knowledge c count ai = Some (knowledge_added c count ai).
Proof.
  unfold add_knowledge, knowledge_added. simpl.
  change (set_knowledge _ (mark_safe c _)) with (observed c count ai).
  rewrite resolve_all_resolved_all. simpl.
  apply infer_all_inferred_all.
Qed.

Lemma step_stepped o ai : step o ai = Some (stepped o ai).
Proof. destruct o; simpl; auto using add_knowledge_knowledge_added. Qed.

Lemma run_ran ops ai : run ops ai = Some (ran ops ai).
Proof.
  unfold run, ran. revert ai.
  induction ops as [|o ops IH]; intros ai; simpl; [done|].
  rewrite step_stepped. apply IH.
Qed.

End calls.

(** ** The two resolution queries of a sentence *)

(** C8, counterexample: the sentence with no cells and count [0] is
    reported by [known_mines]: the result is the empty set, not [None]. *)
Lemma known_mines_vacuous_not_absent :
  Sentence.cells (Sentence.mk ∅ 0) = ∅
  ∧ Sentence.count (Sentence.mk ∅ 0) = 0
  ∧ Sentence.known_mines (Sentence.mk ∅ 0) ≠ None.
Proof. repeat split. vm_compute. discriminate. Qed.

(** C8, as the code has it: [known_mines] returns the cell set of the
    sentence exactly when the count equals the number of cells, also for the
    sentence with no cells and count [0], for which it returns the empty
    set; [known_safes] returns the cell set exactly when the count is [0],
    whether or not the sentence has cells; each returns [None] otherwise. *)
Theorem known_mines_known_safes (s : Sentence.t) :
  (Sentence.known_mines s = Some (Sentence.cells s)
   ↔ Sentence.count s = Z.of_nat (size (Sentence.cells s)))
  ∧ (Sentence.known_mines s = None
     ↔ Sentence.count s ≠ Z.of_nat (size (Sentence.cells s)))
  ∧ (Sentence.known_safes s = Some (Sentence.cells s)
     ↔ Sentence.count s = 0)
  ∧ (Sentence.known_safes s = None ↔ Sentence.count s ≠ 0)
  ∧ Sentence.known_mines (Sentence.mk ∅ 0) = Some ∅
  ∧ Sentence.known_safes (Sentence.mk ∅ 0) = Some ∅.
Proof.
  unfold Sentence.known_mines, Sentence.known_safes. simpl.
  repeat split; try (repeat case_decide; naive_solver).
Qed.

(** ** What a call leaves unchanged *)

Lemma foldl_invariant (P : t → Prop) (f : nat → t → t) (ks : list nat)
      (ai : t) :
  (∀ k a, P a → P (f k a)) → P ai → P (foldl (λ a k, f k a) ai ks).
Proof.
  intros Hf. revert ai. induction ks as [|k ks IH]; intros ai HP; simpl; auto.
Qed.

Lemma resolved_moves_made k ai c :
  c ∈ moves_made ai → c ∈ moves_made (resolved k ai).
Proof.
  unfold resolved. destruct (knowledge ai !! k); [|done].
  by repeat case_decide.
Qed.

Lemma inferred_moves_made k ai c :
  c ∈ moves_made ai → c ∈ moves_made (inferred k ai).
Proof.
  unfold inferred. destruct (knowledge ai !! k); [|done].
  by repeat case_decide.
Qed.

Lemma resolved_safes k ai c : c ∈ safes ai → c ∈ safes (resolved k ai).
Proof.
  unfold resolved. destruct (knowledge ai !! k); [|done].
  repeat case_decide; simpl; set_solver.
Qed.

Lemma inferred_safes k ai c : c ∈ safes ai → c ∈ safes (inferred k ai).
Proof.
  unfold inferred. destruct (knowledge ai !! k); [|done].
  repeat case_decide; simpl; set_solver.
Qed.

Lemma knowledge_added_records c count ai :
  c ∈ moves_made (knowledge_added c count ai)
  ∧ c ∈ safes (knowledge_added c count ai).
Proof.
  unfold knowledge_added, inferred_all, resolved_all. split.
  - apply (foldl_invariant (λ a, c ∈ moves_made a));
      [intros; by apply inferred_moves_made|].
    apply (foldl_invariant (λ a, c ∈ moves_made a));
      [intros; by apply resolved_moves_made|].
    simpl. set_solver.
  - apply (foldl_invariant (λ a, c ∈ safes a));
      [intros; by apply inferred_safes|].
    apply (foldl_invariant (λ a, c ∈ safes a));
      [intros; by apply resolved_safes|].
    simpl. set_solver.
Qed.

Lemma ran_length ops ai :
  length (knowledge (ran ops ai))
  = (length (knowledge ai) + add_knowledge_calls ops)%nat.
Proof.
  unfold ran, add_knowledge_calls. revert ai.
  induction ops as [|o ops IH]; intros ai; simpl; [lia|].
  rewrite IH, filter_cons.
  destruct o; simpl; rewrite ?knowledge_added_length, ?length_fmap; lia.
Qed.

(** ** The number of sentences *)

(** C10: every call of [add_knowledge] returns with one sentence more in
    [knowledge], also when the new sentence has no cells; [mark_safe] and
    [mark_mine] keep the number of sentences; so after a sequence of calls
    on a new solver the number of sentences is the number of calls of
    [add_knowledge]. *)
Theorem knowledge_length_counts_calls `{SetPop} :
  (∀ c count ai, ∃ ai',
      add_knowledge c count ai = Some ai'
      ∧ length (knowledge ai') = S (length (knowledge ai)))
  ∧ (∀ c ai, length (knowledge (mark_safe c ai)) = length (knowledge ai)
             ∧ length (knowledge (mark_mine c ai)) = length (knowledge ai))
  ∧ (∀ ops ai, ∃ ai',
        run ops ai = Some ai'
        ∧ length (knowledge ai')
          = (length (knowledge ai) + add_knowledge_calls ops)%nat)
  ∧ (∀ ops h w, ∃ ai',
        run ops (init h w) = Some ai'
        ∧ length (knowledge ai') = add_knowledge_calls ops).
Proof.
  repeat split.
  - intros c count ai. eexists.
    split; [apply add_knowledge_knowledge_added|].
    apply knowledge_added_length.
  - simpl. by rewrite length_fmap.
  - simpl. by rewrite length_fmap.
  - intros ops ai. eexists. split; [apply run_ran|]. apply ran_length.
  - intros ops h w. eexists. split; [apply run_ran|]. by rewrite ran_length.
Qed.

(** ** Arguments that the caller should not pass *)

(** C9, counterexample: on a board of one cell, [add_knowledge] is called
    with the cell [(5, 5)], which is off the board, and then with the same
    cell again; both calls return normally. *)
Lemma add_knowledge_accepts_any_cell :
  in_bounds 1 1 (5, 5) = false
  ∧ add_knowledge (H:=first_pop) (5, 5) 0 (init 1 1)
    = Some (mk 1 1 {[(5, 5)]} ∅ {[(5, 5)]} [Sentence.mk ∅ 0])
  ∧ (5, 5)
    ∈ moves_made (mk 1 1 {[(5, 5)]} ∅ {[(5, 5)]} [Sentence.mk ∅ 0])
  ∧ add_knowledge (H:=first_pop) (5, 5) 0
      (mk 1 1 {[(5, 5)]} ∅ {[(5, 5)]} [Sentence.mk ∅ 0])
    = Some (mk 1 1 {[(5, 5)]} ∅ {[(5, 5)]}
               [Sentence.mk ∅ 0; Sentence.mk ∅ 0]).
Proof.
  split; [done|]. split; [by vm_compute|]. split; [set_solver|].
  by vm_compute.
Qed.

(** C9, as the code has it: [add_knowledge] checks neither that the cell is
    on the board nor that it is a new move; for every cell and count, in
    every state, it returns normally, with the cell recorded in
    [moves_made] and in [safes] and one sentence appended. *)
Theorem add_knowledge_never_fails `{SetPop} (c : cell) (count : Z) (ai : t) :
  ∃ ai', add_knowledge c count ai = Some ai'
         ∧ c ∈ moves_made ai' ∧ c ∈ safes ai'
         ∧ length (knowledge ai') = S (length (knowledge ai)).
Proof.
  eexists. split; [apply add_knowledge_knowledge_added|].
  pose proof (knowledge_added_records c count ai) as [? ?].
  auto using knowledge_added_length.
Qed.

(** ** The scan of [make_random_move] *)

(** C6: on a new board of one cell, where the cell [(0, 0)] is neither a
    move made nor a known mine, [make_random_move] returns [None]; and in
    no state does it return the cell in the last row and last column. *)
Theorem make_random_move_misses_cells :
  make_random_move (init 1 1) = None
  ∧ in_bounds 1 1 (0, 0) = true
  ∧ ((0, 0) ∉ moves_made (init 1 1))
  ∧ ((0, 0) ∉ mines (init 1 1))
  ∧ (∀ ai, make_random_move ai ≠ Some (height ai - 1, width ai - 1)).
Proof.
  split; [done|]. split; [done|]. split; [set_solver|]. split; [set_solver|].
  intros ai Hm. unfold make_random_move in Hm.
  apply head_Some_elem_of, list_elem_of_filter in Hm as [_ Hm].
  apply list_elem_of_bind in Hm as (i & Hj & Hi).
  apply list_elem_of_bind in Hj as (j & Hij & Hj).
  apply elem_of_seqZ in Hi, Hj.
  apply list_elem_of_singleton in Hij. simplify_eq. lia.
Qed.

(** ** Runs on small boards *)

(** Evaluation of a run, whatever the oracle: the run equals its summary,
    which is computed. *)
Ltac run_computed :=
  eexists; split; [apply run_ran|]; vm_compute; repeat split.

(** C1: on the board of 3 rows and 2 columns with mines at [(0, 1)] and
    [(2, 1)], the cells [(0, 0)], [(1, 0)] and [(2, 0)] are observed with
    the counts the board reports.  The knowledge base then holds
    [{(0,1), (1,1)} = 1] and [{(0,1), (1,1), (2,1)} = 2], the first a strict
    subset of the second, and the call has returned: no sentence
    [{(2,1)} = 1] was added and [(2, 1)] is not in [mines]. *)
Theorem subset_inference_not_run `{SetPop} :
  let g := Minesweeper.mk 3 2 [[false; true]; [false; false]; [false; true]] in
  let ops := [AddKnowledge (0, 0) 1; AddKnowledge (1, 0) 2;
              AddKnowledge (2, 0) 1] in
  Minesweeper.nearby_mines g (0, 0) = Some 1
  ∧ Minesweeper.nearby_mines g (1, 0) = Some 2
  ∧ Minesweeper.nearby_mines g (2, 0) = Some 1
  ∧ ∃ ai, run ops (init 3 2) = Some ai
          ∧ knowledge ai
            = [Sentence.mk {[(0, 1); (1, 1)]} 1;
               Sentence.mk {[(0, 1); (1, 1); (2, 1)]} 2;
               Sentence.mk {[(1, 1); (2, 1)]} 1]
          ∧ mines ai = ∅.
Proof. repeat split. run_computed. Qed.

(** C3: on the board of 1 row and 3 columns with mines at [(0, 0)] and
    [(0, 2)], the cell [(0, 1)] is observed with count 2.  Both neighbours
    are marked as mines, and the sentence that was drained is left with no
    cells and count 2. *)
Theorem drained_sentence_keeps_count `{SetPop} :
  let g := Minesweeper.mk 1 3 [[true; false; true]] in
  Minesweeper.nearby_mines g (0, 1) = Some 2
  ∧ ∃ ai, run [AddKnowledge (0, 1) 2] (init 1 3) = Some ai
          ∧ mines ai = {[(0, 0); (0, 2)]}
          ∧ knowledge ai = [Sentence.mk ∅ 2]
          ∧ ∃ s, s ∈ knowledge ai
                 ∧ ¬ (0 ≤ Sentence.count s
                      ≤ Z.of_nat (size (Sentence.cells s))).
Proof.
  repeat split. eexists. split; [apply run_ran|].
  split; [by vm_compute|]. split; [by vm_compute|].
  exists (Sentence.mk ∅ 2). split; [vm_compute; left|].
  change (¬ (0 ≤ 2 ≤ Z.of_nat (size (∅ : gset cell)))).
  rewrite size_empty. lia.
Qed.

(** C5: on the board of 1 row and 5 columns with one mine at [(0, 0)], the
    cells [(0, 1)] and [(0, 3)] are observed with counts 1 and 0.  The second
    call marks [(0, 2)] safe while it drains its own sentence, which leaves
    the first sentence as [{(0,0)} = 1]; the call returns with [(0, 0)] not
    in [mines]. *)
Theorem resolution_is_one_pass `{SetPop} :
  let g := Minesweeper.mk 1 5 [[true; false; false; false; false]] in
  Minesweeper.nearby_mines g (0, 1) = Some 1
  ∧ Minesweeper.nearby_mines g (0, 3) = Some 0
  ∧ ∃ ai, run [AddKnowledge (0, 1) 1; AddKnowledge (0, 3) 0] (init 1 5)
          = Some ai
          ∧ knowledge ai = [Sentence.mk {[(0, 0)]} 1; Sentence.mk ∅ 0]
          ∧ safes ai = {[(0, 1); (0, 2); (0, 3); (0, 4)]}
          ∧ mines ai = ∅.
Proof. repeat split. run_computed. Qed.

(** ** Sentences never hold safe cells *)

Lemma elem_of_window (c x : cell) :
  x ∈ window c
  ↔ c.1 - 1 ≤ x.1 ≤ c.1 + 1 ∧ c.2 - 1 ≤ x.2 ≤ c.2 + 1.
Proof.
  unfold window. rewrite list_elem_of_bind. split.
  - intros (i & Hj & Hi). apply list_elem_of_bind in Hj as (j & Hx & Hj).
    apply elem_of_seqZ in Hi, Hj. apply list_elem_of_singleton in Hx.
    subst x. simpl. lia.
  - intros [Hi Hj]. exists x.1. split; [|apply elem_of_seqZ; lia].
    apply list_elem_of_bind. exists x.2. split; [|apply elem_of_seqZ; lia].
    destruct x. simpl. left.
Qed.

Lemma elem_of_foldl_add_mango (ai : t) (c : cell) (l : list cell)
      (acc : gset cell) (x : cell) :
  x ∈ foldl (add_mango ai c) acc l
  ↔ x ∈ acc
    ∨ (x ∈ l ∧ x ≠ c ∧ (x ∉ moves_made ai) ∧ (x ∉ safes ai)
       ∧ in_bounds (height ai) (width ai) x = true).
Proof.
  revert acc. induction l as [|y l IH]; intros acc; simpl.
  - rewrite elem_of_nil. naive_solver.
  - rewrite IH, elem_of_cons. unfold add_mango.
    destruct (bool_decide (y = c) || bool_decide (y ∈ moves_made ai)
              || bool_decide (y ∈ safes ai)) eqn:Hskip.
    + rewrite !orb_true_iff, !bool_decide_eq_true in Hskip. naive_solver.
    + rewrite !orb_false_iff, !bool_decide_eq_false in Hskip.
      destruct (in_bounds (height ai) (width ai) y) eqn:Hin.
      * rewrite elem_of_union, elem_of_singleton. naive_solver.
      * split.
        -- intros [?|(?&?&?&?&?)]; [by left|right; split_and!; auto].
        -- intros [?|([->|?]&?&?&?&?)]; [by left|congruence|].
           right; split_and!; auto.
Qed.

Lemma elem_of_mangoes (ai : t) (c x : cell) :
  x ∈ mangoes ai c
  ↔ x ∈ window c ∧ x ≠ c ∧ (x ∉ moves_made ai) ∧ (x ∉ safes ai)
    ∧ in_bounds (height ai) (width ai) x = true.
Proof.
  unfold mangoes. rewrite elem_of_foldl_add_mango. set_solver.
Qed.

Lemma safes_folded_mark_safe c ai :
  safes_folded ai → safes_folded (mark_safe c ai).
Proof.
  intros Hai s' Hs'. simpl in *.
  apply list_elem_of_fmap in Hs' as (s & -> & Hs).
  rewrite sentence_mark_safe_cells. specialize (Hai s Hs). set_solver.
Qed.

Lemma safes_folded_mark_mine c ai :
  safes_folded ai → safes_folded (mark_mine c ai).
Proof.
  intros Hai s' Hs'. simpl in *.
  apply list_elem_of_fmap in Hs' as (s & -> & Hs).
  rewrite sentence_mark_mine_cells. specialize (Hai s Hs). set_solver.
Qed.

Lemma safes_folded_observed c count ai :
  safes_folded ai → safes_folded (observed c count ai).
Proof.
  intros Hai s' Hs'. simpl in *.
  apply elem_of_app in Hs' as [Hs'|Hs'].
  - apply list_elem_of_fmap in Hs' as (s & -> & Hs).
    rewrite sentence_mark_safe_cells. specialize (Hai s Hs). set_solver.
  - apply list_elem_of_singleton in Hs' as ->. simpl.
    intros x Hx Hsafe. apply elem_of_mangoes in Hx. set_solver.
Qed.

Lemma safes_folded_all_safe X ai :
  safes_folded ai → safes_folded (all_safe X ai).
Proof.
  intros Hai s' Hs'. simpl in *.
  apply list_elem_of_fmap in Hs' as (s & -> & Hs).
  simpl. specialize (Hai s Hs). set_solver.
Qed.

Lemma elem_of_imap_sentences (f : nat → Sentence.t → Sentence.t) l s' :
  s' ∈ imap f l → ∃ j s, l !! j = Some s ∧ s ∈ l ∧ s' = f j s.
Proof.
  intros (j & Hj)%list_elem_of_lookup. rewrite list_lookup_imap in Hj.
  destruct (l !! j) as [s|] eqn:Hs; simplify_eq/=.
  exists j, s. split_and!; [done| |done]. by eapply list_elem_of_lookup_2.
Qed.

Lemma safes_folded_all_mine k X ai :
  safes_folded ai → safes_folded (all_mine k X ai).
Proof.
  intros Hai s' Hs'. simpl in *.
  apply elem_of_imap_sentences in Hs' as (j & s & _ & Hs & ->).
  specialize (Hai s Hs). case_decide; simpl; set_solver.
Qed.

Lemma safes_folded_all_inferred k X ai :
  safes_folded ai → safes_folded (all_inferred k X ai).
Proof.
  intros Hai s' Hs'. simpl in *.
  apply elem_of_imap_sentences in Hs' as (j & s & _ & Hs & ->).
  specialize (Hai s Hs). case_decide; simpl; set_solver.
Qed.

Lemma safes_folded_resolved k ai :
  safes_folded ai → safes_folded (resolved k ai).
Proof.
  intros Hai. unfold resolved. destruct (knowledge ai !! k); [|done].
  repeat case_decide;
    auto using safes_folded_all_safe, safes_folded_all_mine.
Qed.

Lemma safes_folded_inferred k ai :
  safes_folded ai → safes_folded (inferred k ai).
Proof.
  intros Hai. unfold inferred. destruct (knowledge ai !! k); [|done].
  repeat case_decide; auto using safes_folded_all_inferred.
Qed.

Lemma safes_folded_stepped o ai :
  safes_folded ai → safes_folded (stepped o ai).
Proof.
  intros Hai. destruct o; simpl;
    auto using safes_folded_mark_safe, safes_folded_mark_mine.
  unfold knowledge_added, inferred_all, resolved_all.
  apply foldl_invariant; [intros; by apply safes_folded_inferred|].
  apply foldl_invariant; [intros; by apply safes_folded_resolved|].
  by apply safes_folded_observed.
Qed.

Lemma safes_folded_ran ops ai :
  safes_folded ai → safes_folded (ran ops ai).
Proof.
  unfold ran. revert ai.
  induction ops as [|o ops IH]; intros ai Hai; simpl;
    auto using safes_folded_stepped.
Qed.

Lemma safes_folded_init h w : safes_folded (init h w).
Proof. intros s Hs. simpl in Hs. by apply elem_of_nil in Hs. Qed.

(** C2, counterexample: on the board of 3 rows and 3 columns with mines in
    the last column, [(0, 0)], [(0, 1)] and [(1, 1)] are observed with the
    counts the board reports.  The second call marks [(0, 2)] and [(1, 2)]
    as mines; the sentence of the third call holds both, with the full
    count 3. *)
Lemma sentence_holds_known_mine :
  let g := Minesweeper.mk 3 3
             [[false; false; true]; [false; false; true];
              [false; false; true]] in
  let ops := [AddKnowledge (0, 0) 0; AddKnowledge (0, 1) 2;
              AddKnowledge (1, 1) 3] in
  Minesweeper.nearby_mines g (0, 0) = Some 0
  ∧ Minesweeper.nearby_mines g (0, 1) = Some 2
  ∧ Minesweeper.nearby_mines g (1, 1) = Some 3
  ∧ ∃ ai s, run (H:=first_pop) ops (init 3 3) = Some ai
            ∧ s ∈ knowledge ai
            ∧ s = Sentence.mk {[(0, 2); (1, 2); (2, 0); (2, 1); (2, 2)]} 3
            ∧ (0, 2) ∈ Sentence.cells s
            ∧ (0, 2) ∈ mines ai.
Proof.
  repeat split. eexists. eexists. split; [apply run_ran|].
  split; [|split; [reflexivity|]].
  - vm_compute. do 2 right. left.
  - split; [set_solver|]. by vm_compute; set_solver.
Qed.

(** ** Marking a cell again *)

(** C7, counterexample: in the state reached in the run above, [(0, 2)] is
    in [mines], and [mark_mine (0, 2)] takes the cell out of the last
    sentence and lowers its count from 3 to 2. *)
Lemma mark_mine_again_changes_sentence :
  let ops := [AddKnowledge (0, 0) 0; AddKnowledge (0, 1) 2;
              AddKnowledge (1, 1) 3] in
  ∃ ai, run (H:=first_pop) ops (init 3 3) = Some ai
        ∧ (0, 2) ∈ mines ai
        ∧ knowledge ai !! 2%nat
          = Some (Sentence.mk {[(0, 2); (1, 2); (2, 0); (2, 1); (2, 2)]} 3)
        ∧ knowledge (mark_mine (0, 2) ai) !! 2%nat
          = Some (Sentence.mk {[(1, 2); (2, 0); (2, 1); (2, 2)]} 2)
        ∧ mark_mine (0, 2) ai ≠ ai.
Proof.
  simpl. eexists. split; [apply run_ran|].
  split; [by vm_compute; set_solver|].
  split; [by vm_compute|]. split; [by vm_compute|].
  intros Heq.
  apply (f_equal (λ a, Sentence.count <$> knowledge a)) in Heq.
  vm_compute in Heq. discriminate.
Qed.

Lemma sentence_mark_safe_absent c s :
  c ∉ Sentence.cells s → Sentence.mark_safe c s = s.
Proof. intros. unfold Sentence.mark_safe. by rewrite decide_False. Qed.

Lemma sentence_mark_mine_absent c s :
  c ∉ Sentence.cells s → Sentence.mark_mine c s = s.
Proof. intros. unfold Sentence.mark_mine. by rewrite decide_False. Qed.

Lemma fmap_sentences_id (f : Sentence.t → Sentence.t) (l : list Sentence.t) :
  (∀ s, s ∈ l → f s = s) → f <$> l = l.
Proof.
  intros Hf. induction l as [|s l IH]; simpl; [done|].
  rewrite Hf by left. f_equal. apply IH. intros s' Hs'. apply Hf. by right.
Qed.

Lemma mark_safe_known c ai :
  safes_folded ai → c ∈ safes ai → mark_safe c ai = ai.
Proof.
  intros Hai Hc. apply ai_eq; simpl; try done; [set_solver|].
  apply fmap_sentences_id. intros s Hs.
  apply sentence_mark_safe_absent. specialize (Hai s Hs). set_solver.
Qed.

Lemma mark_mine_known c ai :
  (∀ s, s ∈ knowledge ai → c ∉ Sentence.cells s) →
  c ∈ mines ai → mark_mine c ai = ai.
Proof.
  intros Hai Hc. apply ai_eq; simpl; try done; [set_solver|].
  apply fmap_sentences_id. intros s Hs.
  apply sentence_mark_mine_absent. auto.
Qed.

(** C7, as the code has it: after every sequence of calls on a new solver,
    [mark_safe] on a cell of [safes] changes nothing; [mark_mine] on a cell
    of [mines] changes nothing when no sentence holds the cell; and in every
    state a second [mark_safe] or [mark_mine] of the same cell, right after
    the first, changes nothing. *)
Theorem marking_again `{SetPop} :
  (∀ ops h w, ∃ ai,
      run ops (init h w) = Some ai
      ∧ ∀ c, c ∈ safes ai → mark_safe c ai = ai)
  ∧ (∀ c ai, (∀ s, s ∈ knowledge ai → c ∉ Sentence.cells s) →
             c ∈ mines ai → mark_mine c ai = ai)
  ∧ (∀ c ai, mark_safe c (mark_safe c ai) = mark_safe c ai)
  ∧ (∀ c ai, mark_mine c (mark_mine c ai) = mark_mine c ai).
Proof.
  split_and!.
  - intros ops h w. eexists. split; [apply run_ran|].
    intros c Hc. apply mark_safe_known; [|done].
    apply safes_folded_ran, safes_folded_init.
  - apply mark_mine_known.
  - intros c ai. apply ai_eq; simpl; try done; [set_solver|].
    apply fmap_sentences_id. intros s' (s & -> & Hs)%list_elem_of_fmap.
    apply sentence_mark_safe_absent.
    rewrite sentence_mark_safe_cells. set_solver.
  - intros c ai. apply ai_eq; simpl; try done; [set_solver|].
    apply fmap_sentences_id. intros s' (s & -> & Hs)%list_elem_of_fmap.
    apply sentence_mark_mine_absent.
    rewrite sentence_mark_mine_cells. set_solver.
Qed.

(** ** [safes] and [mines] *)

(** C4, counterexample: [mark_mine] and then [mark_safe] of the same cell
    leave the cell in both sets. *)
Lemma marks_can_overlap :
  ∃ ai, run (H:=first_pop) [MarkMine (0, 0); MarkSafe (0, 0)] (init 1 1)
        = Some ai
        ∧ safes ai ∩ mines ai ≠ ∅.
Proof.
  eexists. split; [apply run_ran|]. vm_compute. discriminate.
Qed.

(** ** Counting the mines of a set of cells *)

Lemma NoDup_window (c : cell) : NoDup (window c).
Proof.
  unfold window. apply NoDup_bind; [| |apply NoDup_seqZ].
  - intros i1 i2 y _ _ (j1 & Hy1 & _)%list_elem_of_bind
      (j2 & Hy2 & _)%list_elem_of_bind.
    apply list_elem_of_singleton in Hy1, Hy2. by simplify_eq.
  - intros i _. apply NoDup_bind; [| |apply NoDup_seqZ].
    + intros j1 j2 y _ _ Hy1%list_elem_of_singleton
        Hy2%list_elem_of_singleton. by simplify_eq.
    + intros j _. apply NoDup_singleton.
Qed.

Section mines.
Context (g : Minesweeper.t).

Lemma nearby_fold_None c (l : list cell) :
  foldl (Minesweeper.nearby_step g c) None l = None.
Proof. induction l as [|x l IH]; simpl; [done|apply IH]. Qed.

Lemma nearby_fold_count c (l : list cell) (a n : Z) :
  foldl (Minesweeper.nearby_step g c) (Some a) l = Some n →
  n = a + Z.of_nat (length (filter (λ ij, ij ≠ c ∧ hidden_mine g ij) l)).
Proof.
  revert a. induction l as [|x l IH]; intros a; simpl.
  - intros [= ->]. lia.
  - rewrite filter_cons. case_bool_decide as Hxc.
    + intros Hn%IH. rewrite decide_False by naive_solver. done.
    + destruct (in_bounds _ _ x) eqn:Hin.
      * destruct (Minesweeper.board_at g x) as [[]|] eqn:Hat; simpl.
        -- intros Hn%IH. rewrite decide_True by (by split). simpl. lia.
        -- intros Hn%IH. rewrite decide_False; [done|].
           intros [_ [_ Hb]]. congruence.
        -- by rewrite nearby_fold_None.
      * intros Hn%IH. rewrite decide_False; [done|].
        intros [_ [Hb _]]. congruence.
Qed.

Lemma filter_mines_without (A X : gset cell) :
  (∀ x, x ∈ X → ¬ hidden_mine g x) →
  filter (hidden_mine g) (A ∖ X) = filter (hidden_mine g) A.
Proof. intros HX. apply set_eq. intros x. set_solver. Qed.

Lemma size_mines_without (A X : gset cell) :
  (∀ x, x ∈ X → hidden_mine g x) →
  Z.of_nat (size (filter (hidden_mine g) (A ∖ X)))
  = Z.of_nat (size (filter (hidden_mine g) A)) - Z.of_nat (size (A ∩ X)).
Proof.
  intros HX.
  assert (filter (hidden_mine g) A
          = (A ∩ X) ∪ filter (hidden_mine g) (A ∖ X)) as ->.
  { apply set_eq. intros x. destruct (decide (x ∈ X)); set_solver. }
  rewrite size_union by set_solver. lia.
Qed.

Lemma no_mines_of_size (X : gset cell) :
  size (filter (hidden_mine g) X) = 0%nat →
  ∀ x, x ∈ X → ¬ hidden_mine g x.
Proof.
  intros Hn%size_empty_inv%leibniz_equiv x Hx Hm.
  assert (x ∈ filter (hidden_mine g) X) as Hin by set_solver.
  rewrite Hn in Hin. set_solver.
Qed.

Lemma all_mines_of_size (X : gset cell) :
  size (filter (hidden_mine g) X) = size X →
  ∀ x, x ∈ X → hidden_mine g x.
Proof.
  intros Hn x Hx.
  assert (filter (hidden_mine g) X = X) as Heq.
  { apply set_subseteq_size_eq; [set_solver|lia]. }
  rewrite <- Heq in Hx. set_solver.
Qed.

Lemma known_mines_of_size (X M : gset cell) :
  (∀ x, x ∈ M → hidden_mine g x) →
  size (filter (hidden_mine g) X) = size (X ∩ M) →
  ∀ x, x ∈ X → hidden_mine g x → x ∈ M.
Proof.
  intros HM Hn x Hx Hm.
  assert (X ∩ M = filter (hidden_mine g) X) as Heq.
  { apply set_subseteq_size_eq; [set_solver|lia]. }
  assert (x ∈ X ∩ M) as Hin; [|set_solver].
  rewrite Heq. set_solver.
Qed.

End mines.

(** ** What the solver knows stays true of the board *)

Lemma mark_safe_all_safe c ai : mark_safe c ai = all_safe {[c]} ai.
Proof.
  apply ai_eq; simpl; try done. apply list_fmap_ext. intros _ s _.
  apply sentence_eq; simpl;
    auto using sentence_mark_safe_cells, sentence_mark_safe_count.
Qed.

Lemma mark_mine_all_mine c ai :
  mark_mine c ai = all_mine (length (knowledge ai)) {[c]} ai.
Proof.
  apply ai_eq; simpl; try done. apply list_eq. intros j.
  rewrite list_lookup_fmap, list_lookup_imap.
  destruct (knowledge ai !! j) as [s|] eqn:Hs; simpl; [|done]. f_equal.
  apply lookup_lt_Some in Hs. rewrite decide_False by lia.
  apply sentence_eq; simpl; [apply sentence_mark_mine_cells|].
  rewrite sentence_mark_mine_count. case_decide.
  - replace (Sentence.cells s ∩ {[c]}) with ({[c]} : gset cell)
      by set_solver.
    rewrite size_singleton. lia.
  - replace (Sentence.cells s ∩ {[c]}) with (∅ : gset cell) by set_solver.
    rewrite size_empty. lia.
Qed.

Lemma in_bounds_on_board (h w : Z) (c : cell) :
  in_bounds h w c = true ↔ 0 ≤ c.1 < h ∧ 0 ≤ c.2 < w.
Proof.
  unfold in_bounds. by rewrite andb_true_iff, !bool_decide_eq_true.
Qed.

Section soundness.
Context (g : Minesweeper.t).

Lemma sound_init (h w : Z) :
  Minesweeper.height g ≤ h → Minesweeper.width g ≤ w → sound g (init h w).
Proof.
  intros Hh Hw. split; simpl; try done; set_solver.
Qed.

Lemma sound_all_safe X ai :
  sound g ai → (∀ x, x ∈ X → ¬ hidden_mine g x) →
  sound g (all_safe X ai).
Proof.
  intros [Hh Hw Hsafe Hmoves Hmines Hkn] HX. split; simpl; try done.
  - intros c [?|?]%elem_of_union; auto.
  - intros s' (s & -> & Hs)%list_elem_of_fmap. simpl.
    destruct (Hkn s Hs) as [Hempty| ->].
    + left. rewrite Hempty. set_solver.
    + right. by rewrite filter_mines_without.
Qed.

Lemma sound_all_mine k X ai :
  sound g ai → (∀ x, x ∈ X → hidden_mine g x) →
  (∀ e, knowledge ai !! k = Some e → Sentence.cells e ⊆ X) →
  sound g (all_mine k X ai).
Proof.
  intros [Hh Hw Hsafe Hmoves Hmines Hkn] HX Hk. split; simpl; try done.
  - intros c [?|?]%elem_of_union; auto.
  - intros s' (j & s & Hj & Hs & ->)%elem_of_imap_sentences.
    case_decide as Hjk; simpl.
    + subst j. left. specialize (Hk s Hj). set_solver.
    + destruct (Hkn s Hs) as [Hempty| ->].
      * left. rewrite Hempty. set_solver.
      * right. by rewrite size_mines_without.
Qed.

Lemma sound_all_inferred k X ai :
  sound g ai → (∀ x, x ∈ X → hidden_mine g x → x ∈ mines ai) →
  (∀ e, knowledge ai !! k = Some e → Sentence.cells e ⊆ X) →
  sound g (all_inferred k X ai).
Proof.
  intros [Hh Hw Hsafe Hmoves Hmines Hkn] HX Hk.
  split; simpl; try done.
  - intros c [Hc|?]%elem_of_union; [|auto]. set_solver.
  - intros s' (j & s & Hj & Hs & ->)%elem_of_imap_sentences.
    case_decide as Hjk; simpl.
    + subst j. left. specialize (Hk s Hj). set_solver.
    + destruct (Hkn s Hs) as [Hempty| ->].
      * left. rewrite Hempty. set_solver.
      * right. rewrite filter_mines_without; [done|]. set_solver.
Qed.

Lemma sound_mark_safe c ai :
  sound g ai → ¬ hidden_mine g c → sound g (mark_safe c ai).
Proof.
  intros. rewrite mark_safe_all_safe. apply sound_all_safe; [done|].
  set_solver.
Qed.

Lemma sound_mark_mine c ai :
  sound g ai → hidden_mine g c → sound g (mark_mine c ai).
Proof.
  intros. rewrite mark_mine_all_mine. apply sound_all_mine; [done| |].
  - set_solver.
  - intros e He%lookup_lt_Some. lia.
Qed.

Lemma sound_resolved k ai : sound g ai → sound g (resolved k ai).
Proof.
  intros Hai. unfold resolved.
  destruct (knowledge ai !! k) as [e|] eqn:He; [|done].
  pose proof (sound_knowledge g ai Hai e
                (list_elem_of_lookup_2 _ _ _ He)) as Hcount.
  case_decide as H0; [|case_decide as Hall; [|done]].
  - apply sound_all_safe; [done|].
    destruct Hcount as [Hempty|Hcount]; [rewrite Hempty; set_solver|].
    apply no_mines_of_size. lia.
  - apply sound_all_mine; [done| |by intros e' He'; simplify_eq].
    destruct Hcount as [Hempty|Hcount]; [rewrite Hempty; set_solver|].
    apply all_mines_of_size. lia.
Qed.

Lemma sound_inferred k ai : sound g ai → sound g (inferred k ai).
Proof.
  intros Hai. unfold inferred, known_in.
  destruct (knowledge ai !! k) as [e|] eqn:He; [|done].
  pose proof (sound_knowledge g ai Hai e
                (list_elem_of_lookup_2 _ _ _ He)) as Hcount.
  case_decide as H0; [done|case_decide as Hknown; [|done]].
  apply sound_all_inferred; [done| |by intros e' He'; simplify_eq].
  destruct Hcount as [Hempty|Hcount].
  { rewrite Hempty, size_empty in H0. done. }
  apply known_mines_of_size; [apply Hai|lia].
Qed.

Lemma mines_of_mangoes c ai :
  sound g ai →
  filter (hidden_mine g) (mangoes ai c)
  = list_to_set (filter (λ ij, ij ≠ c ∧ hidden_mine g ij) (window c)).
Proof.
  intros [Hh Hw Hsafe Hmoves Hmines Hkn]. apply set_eq. intros x.
  rewrite elem_of_filter, elem_of_mangoes, elem_of_list_to_set,
    list_elem_of_filter.
  split; [naive_solver|].
  intros [[Hxc Hx] Hwin]. pose proof Hx as [Hin _].
  apply in_bounds_on_board in Hin.
  split; [done|]. split; [done|]. split; [done|].
  split; [by intros ?%Hmoves|]. split; [by intros ?%Hsafe|].
  apply in_bounds_on_board. lia.
Qed.

Lemma sound_observed c count ai :
  sound g ai → ¬ hidden_mine g c →
  Minesweeper.nearby_mines g c = Some count →
  sound g (observed c count ai).
Proof.
  intros Hai Hc Hcount.
  pose proof (mines_of_mangoes c ai Hai) as Hmangoes.
  destruct Hai as [Hh Hw Hsafe Hmoves Hmines Hkn].
  split; simpl; try done.
  - intros x [->%elem_of_singleton|?]%elem_of_union; auto.
  - intros x [->%elem_of_singleton|?]%elem_of_union; auto.
  - intros s' [Hs'|Hs']%elem_of_app.
    + apply list_elem_of_fmap in Hs' as (s & -> & Hs).
      rewrite sentence_mark_safe_cells, sentence_mark_safe_count.
      destruct (Hkn s Hs) as [Hempty| ->].
      * left. rewrite Hempty. set_solver.
      * right. rewrite filter_mines_without; [done|set_solver].
    + apply list_elem_of_singleton in Hs' as ->. simpl. right.
      rewrite Hmangoes.
      rewrite size_list_to_set by apply NoDup_filter, NoDup_window.
      apply nearby_fold_count in Hcount. lia.
Qed.

Lemma sound_stepped o ai :
  sound g ai → truthful g o → sound g (stepped o ai).
Proof.
  intros Hai Ho. destruct o; simpl in *;
    auto using sound_mark_safe, sound_mark_mine.
  destruct Ho as [Hc Hcount].
  unfold knowledge_added, inferred_all, resolved_all.
  apply foldl_invariant; [intros; by apply sound_inferred|].
  apply foldl_invariant; [intros; by apply sound_resolved|].
  by apply sound_observed.
Qed.

Lemma sound_ran ops ai :
  sound g ai → Forall (truthful g) ops → sound g (ran ops ai).
Proof.
  unfold ran. revert ai.
  induction ops as [|o ops IH]; intros ai Hai Hops; simpl; [done|].
  apply Forall_cons in Hops as [Ho Hops].
  auto using sound_stepped.
Qed.

End soundness.

(** C4, as the code has it: on a new solver that has at least the height
    and the width of a board (the same size, or a larger one), when every
    call tells the solver the truth about the board (cells are observed
    with the count the board reports and are no mines, cells marked safe
    are no mines, cells marked as mines are mines), the run returns and
    [safes] and [mines] are disjoint: every known mine is a mine of the
    board and no safe cell is one. *)
Theorem safes_mines_disjoint `{SetPop} (g : Minesweeper.t) (h w : Z)
        (ops : list op) :
  Minesweeper.height g ≤ h → Minesweeper.width g ≤ w →
  Forall (truthful g) ops →
  ∃ ai, run ops (init h w) = Some ai
        ∧ safes ai ∩ mines ai = ∅
        ∧ (∀ c, c ∈ mines ai → hidden_mine g c)
        ∧ (∀ c, c ∈ safes ai → ¬ hidden_mine g c).
Proof.
  intros Hh Hw Hops. eexists. split; [apply run_ran|].
  pose proof (sound_ran g ops _ (sound_init g h w Hh Hw) Hops)
    as [_ _ Hsafe _ Hmines _].
  split_and!; [|done..].
  apply set_eq. intros x. rewrite elem_of_intersection, elem_of_empty.
  naive_solver.
Qed.

(** The theorem at a run of a solver of 4 rows and 4 columns on the board
    of 3 rows and 3 columns with mines in the last column. *)
Lemma safes_mines_disjoint_witness :
  let g := Minesweeper.mk 3 3
             [[false; false; true]; [false; false; true];
              [false; false; true]] in
  let ops := [AddKnowledge (0, 0) 0; AddKnowledge (0, 1) 2;
              AddKnowledge (1, 1) 3; MarkSafe (1, 0); MarkMine (2, 2);
              MakeSafeMove; MakeRandomMove] in
  Minesweeper.height g ≤ 4 ∧ Minesweeper.width g ≤ 4
  ∧ Forall (truthful g) ops
  ∧ ∃ ai, run (H:=first_pop) ops (init 4 4) = Some ai
          ∧ safes ai ∩ mines ai = ∅
          ∧ (∀ c, c ∈ mines ai → hidden_mine g c)
          ∧ (∀ c, c ∈ safes ai → ¬ hidden_mine g c).
Proof.
  intros g ops.
  assert (Minesweeper.height g ≤ 4) as Hh by (simpl; lia).
  assert (Minesweeper.width g ≤ 4) as Hw by (simpl; lia).
  assert (Forall (truthful g) ops) as Hops.
  { apply (bool_decide_unpack _). vm_compute. exact I. }
  split; [exact Hh|]. split; [exact Hw|]. split; [exact Hops|].
  exact (safes_mines_disjoint (H:=first_pop) g 4 4 ops Hh Hw Hops).
Defined.

(** On such runs the count of a sentence that still has cells is the number
    of mines among them, so it lies between [0] and the number of cells;
    only sentences without cells can hold another count. *)
Lemma truthful_sentences_bounded `{SetPop} (g : Minesweeper.t) (h w : Z)
      (ops : list op) :
  Minesweeper.height g ≤ h → Minesweeper.width g ≤ w →
  Forall (truthful g) ops →
  ∃ ai, run ops (init h w) = Some ai
        ∧ ∀ s, s ∈ knowledge ai → Sentence.cells s ≠ ∅ →
               0 ≤ Sentence.count s ≤ Z.of_nat (size (Sentence.cells s)).
Proof.
  intros Hh Hw Hops. eexists. split; [apply run_ran|].
  intros s Hs Hne.
  destruct (sound_knowledge g _
              (sound_ran g ops _ (sound_init g h w Hh Hw) Hops) s Hs)
    as [?| ->]; [done|].
  assert (size (filter (hidden_mine g) (Sentence.cells s))
          ≤ size (Sentence.cells s))%nat
    by (apply subseteq_size; set_solver).
  lia.
Qed.

(** * More of the program *)

(** ** The two move queries *)

(** X1: in whichever order the loop visits [safes], [make_safe_move]
    returns a cell of [safes] that is not in [moves_made], and returns
    [None] only when every safe cell is a move made. *)
Theorem make_safe_move_spec `{SetPop} (ai : t) :
  match make_safe_move ai with
  | Some c => c ∈ safes ai ∧ c ∉ moves_made ai
  | None => safes ai ⊆ moves_made ai
  end.
Proof.
  unfold make_safe_move.
  destruct (head _) as [c|] eqn:Hhead.
  - apply head_Some_elem_of, list_elem_of_filter in Hhead as [Hc Hin].
    by apply iter_order_elem in Hin.
  - apply head_None in Hhead. intros x Hx%iter_order_elem.
    destruct (decide (x ∈ moves_made ai)) as [|Hnot]; [done|].
    assert (x ∈ filter (λ move, move ∉ moves_made ai)
                  (iter_order (safes ai)))
      as Hin by (by apply list_elem_of_filter).
    rewrite Hhead in Hin. by apply elem_of_nil in Hin.
Qed.

Lemma StronglySorted_seq (a n : nat) : StronglySorted lt (seq a n).
Proof.
  revert a. induction n as [|n IH]; intros a; simpl; constructor; [apply IH|].
  apply Forall_forall. intros k Hk%elem_of_seq. lia.
Qed.

Lemma StronglySorted_seqZ (m n : Z) : StronglySorted Z.lt (seqZ m n).
Proof.
  unfold seqZ. eapply StronglySorted_fmap; [|apply StronglySorted_seq].
  intros x y Hxy. simpl. lia.
Qed.

Lemma StronglySorted_scan (w h : Z) :
  StronglySorted scan_before (i ← seqZ 0 w; j ← seqZ 0 h; [(i, j)]).
Proof.
  generalize (StronglySorted_seqZ 0 w).
  induction 1 as [|i l Hl IH Hi]; csimpl; [constructor|].
  apply StronglySorted_app_2; [| |done].
  - intros x1 x2 (j1 & ->%list_elem_of_singleton & _)%list_elem_of_bind
      (i2 & (j2 & ->%list_elem_of_singleton & _)%list_elem_of_bind
          & Hi2)%list_elem_of_bind.
    left. simpl. by eapply Forall_forall in Hi.
  - assert (∀ r : list Z, (r ≫= λ j, [(i, j)]) = (λ j, (i, j)) <$> r)
      as ->.
    { induction r as [|j r IHr]; csimpl; [done|]. by rewrite IHr. }
    eapply StronglySorted_fmap; [|apply StronglySorted_seqZ].
    intros j1 j2 Hj. right. simpl. done.
Qed.

(** X2: [make_random_move] returns the first cell [(i, j)] of the scan
    [0 <= i < width - 1], [0 <= j < height - 1] that is neither a known mine
    nor a move made: every cell of the scan before it is a known mine or a
    move made; it returns [None] only when every cell of the scan is. *)
Theorem make_random_move_spec (ai : t) :
  match make_random_move ai with
  | Some c =>
      (c ∉ mines ai) ∧ (c ∉ moves_made ai)
      ∧ 0 ≤ c.1 < width ai - 1 ∧ 0 ≤ c.2 < height ai - 1
      ∧ ∀ x, 0 ≤ x.1 < width ai - 1 → 0 ≤ x.2 < height ai - 1 →
             scan_before x c → x ∈ mines ai ∨ x ∈ moves_made ai
  | None =>
      ∀ x, 0 ≤ x.1 < width ai - 1 → 0 ≤ x.2 < height ai - 1 →
           x ∈ mines ai ∨ x ∈ moves_made ai
  end.
Proof.
  unfold make_random_move.
  set (scan := seqZ 0 (width ai - 1) ≫= _).
  assert (∀ x, x ∈ scan
               ↔ 0 ≤ x.1 < width ai - 1 ∧ 0 ≤ x.2 < height ai - 1) as Hscan.
  { intros x. unfold scan. rewrite list_elem_of_bind. split.
    - intros (i & (j & ->%list_elem_of_singleton & Hj)%list_elem_of_bind
                & Hi).
      apply elem_of_seqZ in Hi, Hj. simpl. lia.
    - intros [Hi Hj]. exists x.1. split; [|apply elem_of_seqZ; lia].
      apply list_elem_of_bind. exists x.2.
      split; [|apply elem_of_seqZ; lia]. destruct x. simpl. left. }
  destruct (head _) as [c|] eqn:Hhead.
  - pose proof Hhead as Hc.
    apply head_Some_elem_of, list_elem_of_filter in Hc as [Hfree Hc].
    apply Hscan in Hc.
    split_and!; [set_solver|set_solver|lia..|].
    intros x Hx1 Hx2 Hlt.
    apply head_filter_Some in Hhead as (l1 & l2 & Hsplit & Hl1).
    assert (x ∈ scan) as Hx by (apply Hscan; lia).
    pose proof (StronglySorted_scan (width ai - 1) (height ai - 1))
      as Hsorted.
    fold scan in Hsorted. rewrite Hsplit in Hx, Hsorted.
    apply elem_of_app in Hx as [Hx|Hx].
    + eapply Forall_forall in Hl1; [|done].
      by apply dec_stable in Hl1.
    + exfalso. apply elem_of_cons in Hx as [->|Hx].
      * unfold scan_before in Hlt. lia.
      * apply StronglySorted_app_1_r, StronglySorted_cons in Hsorted
          as [Hafter _].
        eapply Forall_forall in Hafter; [|done].
        unfold scan_before in *. lia.
  - apply head_None in Hhead. intros x Hx1 Hx2.
    assert (x ∈ scan) as Hx by (apply Hscan; lia).
    destruct (decide (x ∈ mines ai ∨ x ∈ moves_made ai)) as [|Hnot];
      [done|].
    assert (x ∈ filter (λ ij, ¬ (ij ∈ mines ai ∨ ij ∈ moves_made ai)) scan)
      as Hin by (by apply list_elem_of_filter).
    rewrite Hhead in Hin. by apply elem_of_nil in Hin.
Qed.

(** ** The order of the pops *)

(** X3: [add_knowledge], and so every sequence of calls, returns the same
    state whichever cells [set.pop()] hands out: two oracles give equal
    results, and the result is never the [KeyError] of an empty set. *)
Theorem pop_order_irrelevant (H1 H2 : SetPop) (ops : list op) (ai : t) :
  run (H:=H1) ops ai = run (H:=H2) ops ai
  ∧ is_Some (run (H:=H1) ops ai).
Proof. rewrite !run_ran. eauto. Qed.

(** ** How the marks compose *)

Lemma sentence_marks_commute (c1 c2 : cell) (s : Sentence.t) :
  c1 ≠ c2 →
  Sentence.mark_safe c1 (Sentence.mark_mine c2 s)
  = Sentence.mark_mine c2 (Sentence.mark_safe c1 s).
Proof.
  intros Hne. apply sentence_eq.
  - rewrite sentence_mark_safe_cells, !sentence_mark_mine_cells,
      sentence_mark_safe_cells. set_solver.
  - rewrite sentence_mark_safe_count, !sentence_mark_mine_count,
      sentence_mark_safe_count, sentence_mark_safe_cells.
    repeat case_decide; set_solver.
Qed.

Lemma sentence_mark_safe_commute (c1 c2 : cell) (s : Sentence.t) :
  Sentence.mark_safe c1 (Sentence.mark_safe c2 s)
  = Sentence.mark_safe c2 (Sentence.mark_safe c1 s).
Proof.
  apply sentence_eq.
  - rewrite !sentence_mark_safe_cells. set_solver.
  - by rewrite !sentence_mark_safe_count.
Qed.

Lemma sentence_mark_mine_commute (c1 c2 : cell) (s : Sentence.t) :
  Sentence.mark_mine c1 (Sentence.mark_mine c2 s)
  = Sentence.mark_mine c2 (Sentence.mark_mine c1 s).
Proof.
  apply sentence_eq.
  - rewrite !sentence_mark_mine_cells. set_solver.
  - rewrite !sentence_mark_mine_count, !sentence_mark_mine_cells.
    destruct (decide (c1 = c2)) as [->|Hne]; [done|].
    repeat case_decide; set_solver by lia.
Qed.

(** X4: marks of two different cells can be made in either order:
    [mark_safe] and [mark_mine] of different cells commute, and so do two
    calls of [mark_safe] and two calls of [mark_mine]. *)
Theorem marks_commute (c1 c2 : cell) (ai : t) :
  c1 ≠ c2 →
  mark_safe c1 (mark_mine c2 ai) = mark_mine c2 (mark_safe c1 ai)
  ∧ mark_safe c1 (mark_safe c2 ai) = mark_safe c2 (mark_safe c1 ai)
  ∧ mark_mine c1 (mark_mine c2 ai) = mark_mine c2 (mark_mine c1 ai).
Proof.
  intros Hne. split_and!; apply ai_eq; simpl; try done; try set_solver.
  - rewrite <- !list_fmap_compose. apply list_fmap_ext. intros _ s _.
    simpl. by apply sentence_marks_commute.
  - rewrite <- !list_fmap_compose. apply list_fmap_ext. intros _ s _.
    simpl. apply sentence_mark_safe_commute.
  - rewrite <- !list_fmap_compose. apply list_fmap_ext. intros _ s _.
    simpl. apply sentence_mark_mine_commute.
Qed.

(** The theorem at the cells [(0, 1)] and [(1, 1)], in a state with one
    sentence that holds both. *)
Lemma marks_commute_witness :
  let ai := mk 2 2 {[(0, 0)]} ∅ {[(0, 0)]}
               [Sentence.mk {[(0, 1); (1, 0); (1, 1)]} 1] in
  (0, 1) ≠ (1, 1)
  ∧ mark_safe (0, 1) (mark_mine (1, 1) ai)
    = mark_mine (1, 1) (mark_safe (0, 1) ai)
  ∧ mark_safe (0, 1) (mark_safe (1, 1) ai)
    = mark_safe (1, 1) (mark_safe (0, 1) ai)
  ∧ mark_mine (0, 1) (mark_mine (1, 1) ai)
    = mark_mine (1, 1) (mark_mine (0, 1) ai).
Proof.
  intros ai.
  assert ((0, 1) ≠ (1, 1)) as Hne by discriminate.
  split; [exact Hne|]. exact (marks_commute (0, 1) (1, 1) ai Hne).
Defined.

(** ** What calls keep and what they add *)

Lemma resolved_frame k ai :
  height (resolved k ai) = height ai ∧ width (resolved k ai) = width ai
  ∧ moves_made (resolved k ai) = moves_made ai
  ∧ mines ai ⊆ mines (resolved k ai) ∧ safes ai ⊆ safes (resolved k ai).
Proof.
  unfold resolved. destruct (knowledge ai !! k); [|done].
  repeat case_decide; simpl; split_and!; set_solver.
Qed.

Lemma inferred_frame k ai :
  height (inferred k ai) = height ai ∧ width (inferred k ai) = width ai
  ∧ moves_made (inferred k ai) = moves_made ai
  ∧ mines ai ⊆ mines (inferred k ai) ∧ safes ai ⊆ safes (inferred k ai).
Proof.
  unfold inferred. destruct (knowledge ai !! k); [|done].
  repeat case_decide; simpl; split_and!; set_solver.
Qed.

Lemma foldl_frame (f : nat → t → t) (ks : list nat) ai :
  (∀ k a, height (f k a) = height a ∧ width (f k a) = width a
          ∧ moves_made (f k a) = moves_made a
          ∧ mines a ⊆ mines (f k a) ∧ safes a ⊆ safes (f k a)) →
  height (foldl (λ a k, f k a) ai ks) = height ai
  ∧ width (foldl (λ a k, f k a) ai ks) = width ai
  ∧ moves_made (foldl (λ a k, f k a) ai ks) = moves_made ai
  ∧ mines ai ⊆ mines (foldl (λ a k, f k a) ai ks)
  ∧ safes ai ⊆ safes (foldl (λ a k, f k a) ai ks).
Proof.
  intros Hf.
  apply (foldl_invariant
           (λ a, height a = height ai ∧ width a = width ai
                 ∧ moves_made a = moves_made ai
                 ∧ mines ai ⊆ mines a ∧ safes ai ⊆ safes a)); [|done].
  intros k a (Hh & Hw & Hv & Hm & Hs).
  destruct (Hf k a) as (Hh' & Hw' & Hv' & Hm' & Hs').
  split_and!; [congruence..|set_solver|set_solver].
Qed.

Lemma knowledge_added_frame c count ai :
  let a' := knowledge_added c count ai in
  height a' = height ai ∧ width a' = width ai
  ∧ moves_made a' = {[c]} ∪ moves_made ai
  ∧ mines ai ⊆ mines a' ∧ safes ai ⊆ safes a'.
Proof.
  simpl. unfold knowledge_added, inferred_all, resolved_all.
  set (a0 := observed c count ai).
  destruct (foldl_frame resolved (seq 0 (length (knowledge a0))) a0
              resolved_frame) as (Hh & Hw & Hv & Hm & Hs).
  set (a1 := foldl _ a0 _) in *.
  destruct (foldl_frame inferred (seq 0 (length (knowledge a1))) a1
              inferred_frame) as (Hh' & Hw' & Hv' & Hm' & Hs').
  split_and!.
  - by rewrite Hh', Hh.
  - by rewrite Hw', Hw.
  - by rewrite Hv', Hv.
  - set_solver.
  - subst a0. simpl in *. set_solver.
Qed.

Lemma ran_frame ops ai :
  height (ran ops ai) = height ai ∧ width (ran ops ai) = width ai
  ∧ moves_made (ran ops ai) = moves_made ai ∪ observed_cells ops
  ∧ mines ai ⊆ mines (ran ops ai) ∧ safes ai ⊆ safes (ran ops ai).
Proof.
  unfold ran, observed_cells. revert ai.
  induction ops as [|o ops IH]; intros ai; simpl.
  { split_and!; set_solver. }
  destruct (IH (stepped o ai)) as (Hh & Hw & Hv & Hm & Hs).
  rewrite Hh, Hw, Hv. clear IH Hh Hw Hv.
  destruct o as [c count| | | |]; simpl in *.
  - destruct (knowledge_added_frame c count ai) as (Hh & Hw & Hv & ? & ?).
    simpl in *. rewrite Hv. split_and!; [done|done| |set_solver..].
    set_solver.
  - split_and!; set_solver.
  - split_and!; set_solver.
  - split_and!; set_solver.
  - split_and!; set_solver.
Qed.

(** X5: a sequence of calls never changes [height] and [width] and never
    removes a cell from [mines] or [safes]; [moves_made] grows by exactly
    the cells passed to [add_knowledge], whatever else is called. *)
Theorem calls_only_add `{SetPop} (ops : list op) (ai : t) :
  ∃ ai', run ops ai = Some ai'
         ∧ height ai' = height ai ∧ width ai' = width ai
         ∧ moves_made ai' = moves_made ai ∪ observed_cells ops
         ∧ mines ai ⊆ mines ai' ∧ safes ai ⊆ safes ai'.
Proof. eexists. split; [apply run_ran|]. apply ran_frame. Qed.

Lemma ran_moves_made_safe ops ai :
  moves_made ai ⊆ safes ai → moves_made (ran ops ai) ⊆ safes (ran ops ai).
Proof.
  unfold ran. revert ai.
  induction ops as [|o ops IH]; intros ai Hai; simpl; [done|].
  apply IH. destruct o as [c count| | | |]; simpl; try set_solver.
  destruct (knowledge_added_frame c count ai) as (_ & _ & Hv & _ & Hs).
  simpl in *. rewrite Hv.
  pose proof (knowledge_added_records c count ai) as [_ Hc].
  set_solver.
Qed.

(** X6: after every sequence of calls on a new solver, every move made is
    known safe: [moves_made] is a subset of [safes]. *)
Theorem moves_made_are_safe `{SetPop} (ops : list op) (h w : Z) :
  ∃ ai, run ops (init h w) = Some ai ∧ moves_made ai ⊆ safes ai.
Proof.
  eexists. split; [apply run_ran|]. by apply ran_moves_made_safe.
Qed.

(** ** Sentences only shrink *)

Lemma shrinks_refl s : shrinks s s.
Proof. by split_and!. Qed.

Lemma shrinks_trans s1 s2 s3 : shrinks s1 s2 → shrinks s2 s3 → shrinks s1 s3.
Proof.
  intros (Hc & Hn & He) (Hc' & Hn' & He'). split_and!; [set_solver|lia|].
  intros Hempty. rewrite <- (He Hempty). apply He'.
  rewrite (He Hempty). done.
Qed.

Lemma shrinks_without (s : Sentence.t) (X : gset cell) (n : Z) :
  0 ≤ n → (Sentence.cells s = ∅ → n = 0) →
  shrinks s (Sentence.mk (Sentence.cells s ∖ X) (Sentence.count s - n)).
Proof.
  intros Hn H0. split_and!; simpl; [set_solver|lia|].
  intros Hempty. rewrite (H0 Hempty), Z.sub_0_r.
  apply sentence_eq; simpl; set_solver.
Qed.

Lemma shrinks_without_safe (s : Sentence.t) (X : gset cell) :
  shrinks s (Sentence.mk (Sentence.cells s ∖ X) (Sentence.count s)).
Proof.
  pose proof (shrinks_without s X 0) as Hs. rewrite Z.sub_0_r in Hs.
  by apply Hs.
Qed.

Lemma shrinks_without_mine (s : Sentence.t) (X : gset cell) :
  shrinks s (Sentence.mk (Sentence.cells s ∖ X)
               (Sentence.count s - Z.of_nat (size (Sentence.cells s ∩ X)))).
Proof.
  apply shrinks_without; [lia|]. intros ->.
  replace (∅ ∩ X) with (∅ : gset cell) by set_solver.
  by rewrite size_empty.
Qed.

Lemma shrinks_mark_safe c s : shrinks s (Sentence.mark_safe c s).
Proof.
  unfold Sentence.mark_safe. case_decide; [|apply shrinks_refl].
  apply shrinks_without_safe.
Qed.

Lemma shrinks_mark_mine c s : shrinks s (Sentence.mark_mine c s).
Proof.
  unfold Sentence.mark_mine. case_decide; [|apply shrinks_refl].
  apply (shrinks_without s {[c]} 1); [lia|set_solver].
Qed.

Lemma Forall2_shrinks_fmap (f : Sentence.t → Sentence.t) kn :
  (∀ s, shrinks s (f s)) → Forall2 shrinks kn (f <$> kn).
Proof.
  intros Hf. apply Forall2_same_length_lookup_2; [by rewrite length_fmap|].
  intros i s s' Hs. rewrite list_lookup_fmap, Hs. by intros [= <-].
Qed.

Lemma Forall2_shrinks_imap (f : nat → Sentence.t → Sentence.t) kn :
  (∀ j s, shrinks s (f j s)) → Forall2 shrinks kn (imap f kn).
Proof.
  intros Hf. apply Forall2_same_length_lookup_2; [by rewrite length_imap|].
  intros i s s' Hs. rewrite list_lookup_imap, Hs. by intros [= <-].
Qed.

Lemma Forall2_shrinks_trans k1 k2 k3 :
  Forall2 shrinks k1 k2 → Forall2 shrinks k2 k3 → Forall2 shrinks k1 k3.
Proof. apply Forall2_trans. apply shrinks_trans. Qed.

Lemma resolved_shrinks k ai :
  Forall2 shrinks (knowledge ai) (knowledge (resolved k ai)).
Proof.
  unfold resolved.
  destruct (knowledge ai !! k);
    [|apply Forall_Forall2_diag, Forall_true, shrinks_refl].
  repeat case_decide; simpl.
  - apply Forall2_shrinks_fmap. intros. apply shrinks_without_safe.
  - apply Forall2_shrinks_imap. intros.
    case_decide; auto using shrinks_without_safe, shrinks_without_mine.
  - apply Forall_Forall2_diag, Forall_true, shrinks_refl.
Qed.

Lemma inferred_shrinks k ai :
  Forall2 shrinks (knowledge ai) (knowledge (inferred k ai)).
Proof.
  unfold inferred.
  destruct (knowledge ai !! k);
    [|apply Forall_Forall2_diag, Forall_true, shrinks_refl].
  repeat case_decide; simpl;
    try apply Forall_Forall2_diag, Forall_true, shrinks_refl.
  apply Forall2_shrinks_imap. intros.
  case_decide; auto using shrinks_without_safe.
Qed.

Lemma foldl_shrinks (f : nat → t → t) (ks : list nat) ai :
  (∀ k a, Forall2 shrinks (knowledge a) (knowledge (f k a))) →
  Forall2 shrinks (knowledge ai) (knowledge (foldl (λ a k, f k a) ai ks)).
Proof.
  intros Hf.
  apply (foldl_invariant (λ a, Forall2 shrinks (knowledge ai) (knowledge a)));
    [|apply Forall_Forall2_diag, Forall_true, shrinks_refl].
  intros k a Ha. eapply Forall2_shrinks_trans; [exact Ha|apply Hf].
Qed.

Lemma knowledge_added_shrinks c count ai :
  Forall2 shrinks (knowledge (observed c count ai))
          (knowledge (knowledge_added c count ai)).
Proof.
  unfold knowledge_added, inferred_all, resolved_all.
  eapply Forall2_shrinks_trans;
    [apply foldl_shrinks, resolved_shrinks
    |apply foldl_shrinks, inferred_shrinks].
Qed.

Lemma stepped_shrinks o ai :
  ∃ olds news,
    knowledge (stepped o ai) = olds ++ news
    ∧ Forall2 shrinks (knowledge ai) olds
    ∧ length news = add_knowledge_calls [o].
Proof.
  destruct o as [c count|c|c| |]; simpl.
  - pose proof (knowledge_added_shrinks c count ai) as Hs. simpl in Hs.
    apply Forall2_app_inv_l in Hs as (olds & news & Holds & Hnews & ->).
    exists olds, news. split_and!; [done| |].
    + eapply Forall2_shrinks_trans; [|exact Holds].
      apply Forall2_shrinks_fmap, shrinks_mark_safe.
    + apply Forall2_length in Hnews. by rewrite <- Hnews.
  - eexists _, []. rewrite app_nil_r. split_and!; [done| |done].
    apply Forall2_shrinks_fmap, shrinks_mark_safe.
  - eexists _, []. rewrite app_nil_r. split_and!; [done| |done].
    apply Forall2_shrinks_fmap, shrinks_mark_mine.
  - eexists _, []. rewrite app_nil_r. split_and!; [done| |done].
    apply Forall_Forall2_diag, Forall_true, shrinks_refl.
  - eexists _, []. rewrite app_nil_r. split_and!; [done| |done].
    apply Forall_Forall2_diag, Forall_true, shrinks_refl.
Qed.

Lemma ran_shrinks ops ai :
  ∃ olds news,
    knowledge (ran ops ai) = olds ++ news
    ∧ Forall2 shrinks (knowledge ai) olds
    ∧ length news = add_knowledge_calls ops.
Proof.
  unfold ran. revert ai. induction ops as [|o ops IH]; intros ai; simpl.
  { eexists _, []. rewrite app_nil_r. split_and!; [done| |done].
    apply Forall_Forall2_diag, Forall_true, shrinks_refl. }
  destruct (IH (stepped o ai)) as (olds' & news' & Hkn & Holds' & Hnews').
  destruct (stepped_shrinks o ai) as (olds & news & Hstep & Holds & Hnews).
  rewrite Hstep in Holds'.
  apply Forall2_app_inv_l in Holds'
    as (olds'' & news'' & Holds'' & Hnews'' & ->).
  exists olds'', (news'' ++ news'). split_and!.
  - by rewrite Hkn, (assoc_L (++)).
  - by eapply Forall2_shrinks_trans.
  - apply Forall2_length in Hnews''. rewrite length_app, <- Hnews'', Hnews.
    change (o :: ops) with ([o] ++ ops).
    unfold add_knowledge_calls in *. rewrite filter_app, length_app. lia.
Qed.

(** X7: across every sequence of calls the sentences keep their places in
    [knowledge] and only shrink: each one loses cells, its count never
    grows, and a sentence that has no cells left is never changed again;
    the sentences of the calls of [add_knowledge] are added behind them. *)
Theorem sentences_only_shrink `{SetPop} (ops : list op) (ai : t) :
  ∃ ai', run ops ai = Some ai'
         ∧ ∃ olds news,
             knowledge ai' = olds ++ news
             ∧ Forall2 shrinks (knowledge ai) olds
             ∧ length news = add_knowledge_calls ops.
Proof. eexists. split; [apply run_ran|]. apply ran_shrinks. Qed.

(** ** Sentences stay on the board *)

Lemma on_board_shrinks a a' :
  height a' = height a → width a' = width a →
  Forall2 shrinks (knowledge a) (knowledge a') →
  on_board a → on_board a'.
Proof.
  intros Hh Hw Hs Ha s' Hs' x Hx. rewrite Hh, Hw.
  apply list_elem_of_lookup_1 in Hs' as [i Hi].
  destruct (Forall2_lookup_r _ _ _ _ _ Hs Hi) as (s & Hsi & Hc & _).
  apply (Ha s); [by eapply list_elem_of_lookup_2|set_solver].
Qed.

Lemma on_board_stepped o ai : on_board ai → on_board (stepped o ai).
Proof.
  intros Hai. destruct o as [c count|c|c| |]; simpl; try done.
  - destruct (knowledge_added_frame c count ai) as (Hh & Hw & _).
    apply (on_board_shrinks (observed c count ai));
      [done|done|apply knowledge_added_shrinks|].
    intros s' [Hs'|Hs']%elem_of_app x Hx; simpl in *.
    + apply list_elem_of_fmap in Hs' as (s & -> & Hs).
      rewrite sentence_mark_safe_cells in Hx.
      apply (Hai s Hs). set_solver.
    + apply list_elem_of_singleton in Hs' as ->. simpl in Hx.
      by apply elem_of_mangoes in Hx as (_ & _ & _ & _ & Hin).
  - apply (on_board_shrinks ai); [done|done| |done].
    apply Forall2_shrinks_fmap, shrinks_mark_safe.
  - apply (on_board_shrinks ai); [done|done| |done].
    apply Forall2_shrinks_fmap, shrinks_mark_mine.
Qed.

(** X8: after every sequence of calls on a new solver, every cell of every
    sentence lies on the board, [0 <= i < height] and [0 <= j < width],
    also when [add_knowledge], [mark_safe] or [mark_mine] were called with
    cells off the board. *)
Theorem sentences_stay_on_board `{SetPop} (ops : list op) (h w : Z) :
  ∃ ai, run ops (init h w) = Some ai ∧ on_board ai.
Proof.
  eexists. split; [apply run_ran|].
  assert (on_board (init h w)) as Hinit.
  { intros s Hs. by apply elem_of_nil in Hs. }
  revert Hinit. generalize (init h w). unfold ran.
  induction ops as [|o ops IH]; intros ai Hai; simpl; [done|].
  by apply IH, on_board_stepped.
Qed.

(** ** Runs that tell the truth: what the new sentence yields *)

Section resolution.
Context (g : Minesweeper.t).

Lemma resolved_sound_cases k a :
  sound g a →
  resolved k a = a
  ∨ (∃ e, knowledge a !! k = Some e ∧ Sentence.count e = 0
          ∧ (∀ x, x ∈ Sentence.cells e → ¬ hidden_mine g x)
          ∧ resolved k a = all_safe (Sentence.cells e) a)
  ∨ (∃ e, knowledge a !! k = Some e ∧ Sentence.count e ≠ 0
          ∧ Sentence.count e = Z.of_nat (size (Sentence.cells e))
          ∧ (∀ x, x ∈ Sentence.cells e → hidden_mine g x)
          ∧ resolved k a = all_mine k (Sentence.cells e) a).
Proof.
  intros Ha. unfold resolved.
  destruct (knowledge a !! k) as [e|] eqn:He; [|by left].
  pose proof (sound_knowledge g a Ha e (list_elem_of_lookup_2 _ _ _ He))
    as Hcount.
  case_decide as H0; [|case_decide as Hall; [|by left]].
  - right. left. exists e. split_and!; try done.
    destruct Hcount as [Hempty|Hcount]; [rewrite Hempty; set_solver|].
    apply no_mines_of_size. lia.
  - right. right. exists e. split_and!; try done.
    destruct Hcount as [Hempty|Hcount]; [rewrite Hempty; set_solver|].
    apply all_mines_of_size. lia.
Qed.

Lemma sentence_without_mines a e :
  sound g a → e ∈ knowledge a → Sentence.count e = 0 →
  ∀ x, x ∈ Sentence.cells e → ¬ hidden_mine g x.
Proof.
  intros Ha He H0.
  destruct (sound_knowledge g a Ha e He) as [Hempty|Hcount];
    [rewrite Hempty; set_solver|].
  apply no_mines_of_size. lia.
Qed.

Lemma sentence_of_mines a e :
  sound g a → e ∈ knowledge a →
  Sentence.count e = Z.of_nat (size (Sentence.cells e)) →
  ∀ x, x ∈ Sentence.cells e → hidden_mine g x.
Proof.
  intros Ha He Hall.
  destruct (sound_knowledge g a Ha e He) as [Hempty|Hcount];
    [rewrite Hempty; set_solver|].
  apply all_mines_of_size. lia.
Qed.

Lemma opening_resolved n M k a :
  k ≠ n → opening g n M a → opening g n M (resolved k a).
Proof.
  intros Hkn [Ha (e & He & H0 & HM)].
  split; [by apply sound_resolved|].
  pose proof (sentence_without_mines a e Ha
                (list_elem_of_lookup_2 _ _ _ He) H0) as Hsafe.
  destruct (resolved_sound_cases k a Ha)
    as [->|[(e' & He' & _ & HX & ->)|(e' & He' & _ & _ & HX & ->)]].
  - by exists e.
  - eexists. simpl. rewrite list_lookup_fmap, He. simpl.
    split_and!; [done|done|].
    intros x Hx. destruct (decide (x ∈ Sentence.cells e')); set_solver.
  - eexists. simpl. rewrite list_lookup_imap, He. simpl.
    rewrite decide_False by done. split_and!; [done| |].
    + simpl. replace (Sentence.cells e ∩ Sentence.cells e')
        with (∅ : gset cell) by set_solver.
      rewrite size_empty. lia.
    + simpl. set_solver.
Qed.

Lemma flagging_resolved n M k a :
  k ≠ n → flagging g n M a → flagging g n M (resolved k a).
Proof.
  intros Hkn [Ha (e & He & Hall & HM)].
  split; [by apply sound_resolved|].
  pose proof (sentence_of_mines a e Ha
                (list_elem_of_lookup_2 _ _ _ He) Hall) as Hmine.
  destruct (resolved_sound_cases k a Ha)
    as [->|[(e' & He' & _ & HX & ->)|(e' & He' & _ & _ & HX & ->)]].
  - by exists e.
  - eexists. simpl. rewrite list_lookup_fmap, He. simpl.
    split_and!; [done| |].
    + simpl. rewrite Hall. do 2 f_equal. set_solver.
    + simpl. set_solver.
  - eexists. simpl. rewrite list_lookup_imap, He. simpl.
    rewrite decide_False by done. split_and!; [done| |].
    + simpl.
      pose proof (size_difference_alt (Sentence.cells e) (Sentence.cells e'))
        as Hdiff.
      assert (size (Sentence.cells e ∩ Sentence.cells e')
              ≤ size (Sentence.cells e))%nat
        by (apply subseteq_size; set_solver).
      lia.
    + simpl. intros x Hx.
      destruct (decide (x ∈ Sentence.cells e')); set_solver.
Qed.

Lemma foldl_below (P : t → Prop) (n : nat) a :
  (∀ k a', k ≠ n → P a' → P (resolved k a')) → P a →
  P (foldl (λ a' k, resolved k a') a (seq 0 n)).
Proof.
  intros Hstep. generalize (indices_lt n). generalize (seq 0 n).
  intros ks Hks. revert a. induction Hks as [|k ks Hk _ IH]; intros a Ha;
    simpl; [done|].
  apply IH, Hstep; [lia|done].
Qed.

Lemma opening_resolved_all n M a :
  length (knowledge a) = S n → opening g n M a → M ⊆ safes (resolved_all a).
Proof.
  intros Hlen Hopen. unfold resolved_all.
  rewrite Hlen, seq_S, foldl_app. simpl.
  pose proof (foldl_below (opening g n M) n a
                (λ k a' Hk, opening_resolved n M k a' Hk) Hopen)
    as [Ha (e & He & H0 & HM)].
  unfold resolved at 1. rewrite He, decide_True by done. simpl. set_solver.
Qed.

Lemma flagging_resolved_all n M a :
  length (knowledge a) = S n → flagging g n M a → M ⊆ mines (resolved_all a).
Proof.
  intros Hlen Hflag. unfold resolved_all.
  rewrite Hlen, seq_S, foldl_app. simpl.
  pose proof (foldl_below (flagging g n M) n a
                (λ k a' Hk, flagging_resolved n M k a' Hk) Hflag)
    as [Ha (e & He & Hall & HM)].
  unfold resolved at 1. rewrite He. case_decide as H0.
  - simpl. rewrite H0 in Hall.
    assert (Sentence.cells e = ∅) as Hempty
      by (apply leibniz_equiv, size_empty_inv; lia).
    set_solver.
  - rewrite decide_True by done. simpl. set_solver.
Qed.

Lemma mangoes_count c count a :
  sound g a → Minesweeper.nearby_mines g c = Some count →
  count = Z.of_nat (size (filter (hidden_mine g) (mangoes a c))).
Proof.
  intros Ha Hcount. rewrite (mines_of_mangoes g c a Ha).
  rewrite size_list_to_set by apply NoDup_filter, NoDup_window.
  apply nearby_fold_count in Hcount. lia.
Qed.

Lemma knowledge_added_opens c a :
  sound g a → ¬ hidden_mine g c →
  Minesweeper.nearby_mines g c = Some 0 →
  mangoes a c ⊆ safes (knowledge_added c 0 a).
Proof.
  intros Ha Hc Hcount. unfold knowledge_added, inferred_all.
  etrans; [|apply foldl_frame, inferred_frame].
  apply (opening_resolved_all (length (knowledge a)));
    [apply observed_length|].
  split; [by apply sound_observed|].
  eexists. simpl. rewrite lookup_app_r by (by rewrite length_fmap).
  rewrite length_fmap, Nat.sub_diag. simpl. split_and!; [done|done|].
  simpl. set_solver.
Qed.

Lemma knowledge_added_flags c count a :
  sound g a → ¬ hidden_mine g c →
  Minesweeper.nearby_mines g c = Some count →
  count = Z.of_nat (size (mangoes a c)) →
  mangoes a c ⊆ mines (knowledge_added c count a).
Proof.
  intros Ha Hc Hcount Hall. unfold knowledge_added, inferred_all.
  etrans; [|apply foldl_frame, inferred_frame].
  apply (flagging_resolved_all (length (knowledge a)));
    [apply observed_length|].
  split; [by apply sound_observed|].
  eexists. simpl. rewrite lookup_app_r by (by rewrite length_fmap).
  rewrite length_fmap, Nat.sub_diag. simpl. split_and!; [done|done|].
  simpl. set_solver.
Qed.

End resolution.

(** X9: on a new solver that has at least the height and the width of a
    board, when every call tells the truth about the board, the run returns
    and every sentence that still has cells counts exactly the mines of the
    board among its cells. *)
Theorem truthful_sentences_count_mines `{SetPop} (g : Minesweeper.t)
        (h w : Z) (ops : list op) :
  Minesweeper.height g ≤ h → Minesweeper.width g ≤ w →
  Forall (truthful g) ops →
  ∃ ai, run ops (init h w) = Some ai
        ∧ ∀ s, s ∈ knowledge ai → Sentence.cells s ≠ ∅ →
               Sentence.count s
               = Z.of_nat (size (filter (hidden_mine g) (Sentence.cells s))).
Proof.
  intros Hh Hw Hops. eexists. split; [apply run_ran|].
  intros s Hs Hne.
  by destruct (sound_knowledge g _
                 (sound_ran g ops _ (sound_init g h w Hh Hw) Hops) s Hs).
Qed.

(** The theorem at a run of a solver of 4 rows and 4 columns on the board
    of 3 rows and 3 columns with mines in the last column. *)
Lemma truthful_sentences_count_mines_witness :
  let g := Minesweeper.mk 3 3
             [[false; false; true]; [false; false; true];
              [false; false; true]] in
  let ops := [AddKnowledge (0, 0) 0; AddKnowledge (0, 1) 2;
              AddKnowledge (1, 1) 3] in
  Minesweeper.height g ≤ 4 ∧ Minesweeper.width g ≤ 4
  ∧ Forall (truthful g) ops
  ∧ ∃ ai, run (H:=first_pop) ops (init 4 4) = Some ai
          ∧ ∀ s, s ∈ knowledge ai → Sentence.cells s ≠ ∅ →
                 Sentence.count s
                 = Z.of_nat
                     (size (filter (hidden_mine g) (Sentence.cells s))).
Proof.
  intros g ops.
  assert (Minesweeper.height g ≤ 4) as Hh by (simpl; lia).
  assert (Minesweeper.width g ≤ 4) as Hw by (simpl; lia).
  assert (Forall (truthful g) ops) as Hops.
  { apply (bool_decide_unpack _). vm_compute. exact I. }
  split; [exact Hh|]. split; [exact Hw|]. split; [exact Hops|].
  exact (truthful_sentences_count_mines (H:=first_pop) g 4 4 ops Hh Hw Hops).
Defined.

(** X10: on a new solver that has at least the height and the width of a
    board, when every call tells the truth about the board, the cell that
    [make_safe_move] returns is not a mine of the board, in whichever order
    the loop visits [safes]. *)
Theorem safe_move_is_no_mine `{SetPop} (g : Minesweeper.t) (h w : Z)
        (ops : list op) :
  Minesweeper.height g ≤ h → Minesweeper.width g ≤ w →
  Forall (truthful g) ops →
  ∃ ai, run ops (init h w) = Some ai
        ∧ ∀ c, make_safe_move ai = Some c → ¬ hidden_mine g c.
Proof.
  intros Hh Hw Hops. eexists. split; [apply run_ran|].
  intros c Hc. unfold make_safe_move in Hc.
  apply head_Some_elem_of, list_elem_of_filter in Hc as [_ Hc].
  apply iter_order_elem in Hc.
  by apply (sound_safes g _
              (sound_ran g ops _ (sound_init g h w Hh Hw) Hops)).
Qed.

(** The theorem at a run of a solver of 4 rows and 4 columns on the board
    of 3 rows and 3 columns with mines in the last column, after which
    [make_safe_move] has a cell to return. *)
Lemma safe_move_is_no_mine_witness :
  let g := Minesweeper.mk 3 3
             [[false; false; true]; [false; false; true];
              [false; false; true]] in
  let ops := [AddKnowledge (0, 0) 0] in
  Minesweeper.height g ≤ 4 ∧ Minesweeper.width g ≤ 4
  ∧ Forall (truthful g) ops
  ∧ ∃ ai, run (H:=first_pop) ops (init 4 4) = Some ai
          ∧ ∀ c, make_safe_move (H:=first_pop) ai = Some c →
                 ¬ hidden_mine g c.
Proof.
  intros g ops.
  assert (Minesweeper.height g ≤ 4) as Hh by (simpl; lia).
  assert (Minesweeper.width g ≤ 4) as Hw by (simpl; lia).
  assert (Forall (truthful g) ops) as Hops.
  { apply (bool_decide_unpack _). vm_compute. exact I. }
  split; [exact Hh|]. split; [exact Hw|]. split; [exact Hops|].
  exact (safe_move_is_no_mine (H:=first_pop) g 4 4 ops Hh Hw Hops).
Defined.

(** X11: on a new solver that has at least the height and the width of a
    board and on a run that tells the truth about the board, the sentence
    of the last [add_knowledge] is resolved before the call returns when it
    can be resolved on its own: with count [0] every cell of the sentence,
    and so every neighbour of the observed cell on the solver's board, is
    in [safes]; with a count equal to the number of its cells, every cell
    of the sentence is in [mines]. *)
Theorem new_sentence_is_resolved `{SetPop} (g : Minesweeper.t) (h w : Z)
        (ops : list op) (c : cell) (count : Z) :
  Minesweeper.height g ≤ h → Minesweeper.width g ≤ w →
  Forall (truthful g) ops → truthful g (AddKnowledge c count) →
  ∃ a ai,
    run ops (init h w) = Some a
    ∧ run (ops ++ [AddKnowledge c count]) (init h w) = Some ai
    ∧ (count = 0 →
       mangoes a c ⊆ safes ai
       ∧ ∀ x, x ∈ window c → in_bounds h w x = true → x ∈ safes ai)
    ∧ (count = Z.of_nat (size (mangoes a c)) → mangoes a c ⊆ mines ai).
Proof.
  intros Hh Hw Hops [Hc Hcount].
  set (a := ran ops (init h w)).
  exists a, (knowledge_added c count a).
  split; [apply run_ran|].
  split; [rewrite run_ran; unfold a, ran; by rewrite foldl_app|].
  pose proof (sound_ran g ops _ (sound_init g h w Hh Hw) Hops) as Ha.
  fold a in Ha.
  assert (moves_made a ⊆ safes a) as Hmoves
    by (by apply ran_moves_made_safe).
  destruct (ran_frame ops (init h w)) as (Hah & Haw & _). fold a in Hah, Haw.
  simpl in Hah, Haw.
  split.
  - intros ->.
    pose proof (knowledge_added_opens g c a Ha Hc Hcount) as Hopen.
    split; [done|]. intros x Hwin Hin.
    destruct (knowledge_added_frame c 0 a) as (_ & _ & _ & _ & Hsafes).
    pose proof (knowledge_added_records c 0 a) as [_ Hcsafe].
    destruct (decide (x = c)) as [->|Hxc]; [done|].
    destruct (decide (x ∈ moves_made a)); [set_solver|].
    destruct (decide (x ∈ safes a)); [set_solver|].
    apply Hopen, elem_of_mangoes. by rewrite Hah, Haw.
  - intros Hall. by apply (knowledge_added_flags g).
Qed.

(** The theorem at a solver of 4 rows and 4 columns on the board of 3 rows
    and 3 columns with mines in the last column: after [(0, 0)] was
    observed with count 0, [(0, 1)] is observed with count 2, the number of
    cells of its sentence. *)
Lemma new_sentence_is_resolved_witness :
  let g := Minesweeper.mk 3 3
             [[false; false; true]; [false; false; true];
              [false; false; true]] in
  let ops := [AddKnowledge (0, 0) 0] in
  Minesweeper.height g ≤ 4 ∧ Minesweeper.width g ≤ 4
  ∧ Forall (truthful g) ops ∧ truthful g (AddKnowledge (0, 1) 2)
  ∧ ∃ a ai,
      run (H:=first_pop) ops (init 4 4) = Some a
      ∧ run (H:=first_pop) (ops ++ [AddKnowledge (0, 1) 2]) (init 4 4)
        = Some ai
      ∧ (2 = 0 →
         mangoes a (0, 1) ⊆ safes ai
         ∧ ∀ x, x ∈ window (0, 1) → in_bounds 4 4 x = true → x ∈ safes ai)
      ∧ (2 = Z.of_nat (size (mangoes a (0, 1))) →
         mangoes a (0, 1) ⊆ mines ai).
Proof.
  intros g ops.
  assert (Minesweeper.height g ≤ 4) as Hh by (simpl; lia).
  assert (Minesweeper.width g ≤ 4) as Hw by (simpl; lia).
  assert (Forall (truthful g) ops) as Hops.
  { apply (bool_decide_unpack _). vm_compute. exact I. }
  assert (truthful g (AddKnowledge (0, 1) 2)) as Hop.
  { apply (bool_decide_unpack _). vm_compute. exact I. }
  split; [exact Hh|]. split; [exact Hw|]. split; [exact Hops|].
  split; [exact Hop|].
  exact (new_sentence_is_resolved (H:=first_pop) g 4 4 ops (0, 1) 2
           Hh Hw Hops Hop).
Defined.

(** * The board *)

(** ** Indices *)

Lemma py_index_nonneg {A} (l : list A) (i : Z) :
  0 ≤ i → Minesweeper.py_index l i = l !! Z.to_nat i.
Proof.
  intros Hi. unfold Minesweeper.py_index.
  destruct (decide (i < 0)); [lia|]. simpl. by rewrite decide_True.
Qed.

Lemma py_index_range {A} (l : list A) (i : Z) :
  Minesweeper.py_index l i
  = if decide (- Z.of_nat (length l) ≤ i < Z.of_nat (length l))
    then l !! Z.to_nat (i `mod` Z.of_nat (length l))
    else None.
Proof.
  unfold Minesweeper.py_index. set (n := Z.of_nat (length l)).
  destruct (decide (i < 0)) as [Hneg|Hpos]; simpl.
  - destruct (decide (0 ≤ i + n)) as [Hin|Hout].
    + rewrite decide_True by lia. do 2 f_equal.
      apply Z.mod_unique with (-1); lia.
    + by rewrite decide_False by lia.
  - rewrite decide_True by lia.
    destruct (decide (- n ≤ i < n)) as [Hin|Hout].
    + by rewrite Z.mod_small by lia.
    + apply lookup_ge_None. lia.
Qed.

Lemma py_assign_nonneg {A} (l : list A) (i : Z) (x : A) :
  0 ≤ i < Z.of_nat (length l) →
  Minesweeper.py_assign l i x = Some (<[Z.to_nat i := x]> l).
Proof.
  intros Hi. unfold Minesweeper.py_assign.
  destruct (decide (i < 0)); [lia|]. simpl. by rewrite decide_True.
Qed.

Lemma row_lookup (g : Minesweeper.t) (i : Z) :
  Minesweeper.well_formed g → 0 ≤ i < Minesweeper.height g →
  ∃ row, Minesweeper.board g !! Z.to_nat i = Some row
         ∧ length row = Z.to_nat (Minesweeper.width g).
Proof.
  intros [Hlen Hrows] Hi.
  destruct (lookup_lt_is_Some_2 (Minesweeper.board g) (Z.to_nat i))
    as [row Hrow]; [lia|].
  exists row. split; [done|].
  by eapply Forall_lookup_1 in Hrows.
Qed.

Lemma board_at_in_bounds (g : Minesweeper.t) (c : cell) :
  Minesweeper.well_formed g →
  in_bounds (Minesweeper.height g) (Minesweeper.width g) c = true →
  is_Some (Minesweeper.board_at g c).
Proof.
  intros Hwf Hin. unfold in_bounds in Hin.
  apply andb_true_iff in Hin as [Hi Hj].
  apply bool_decide_eq_true in Hi, Hj.
  destruct (row_lookup g c.1 Hwf Hi) as (row & Hrow & Hlen).
  unfold Minesweeper.board_at. rewrite Hrow. simpl.
  apply lookup_lt_is_Some_2. lia.
Qed.

(** X12: [is_mine] reads the board with Python's indices: on a board of
    [height] rows of [width] entries it returns the entry of row
    [i mod height] and column [j mod width] when [-height <= i < height] and
    [-width <= j < width], so a negative index reads from the far side of
    the board, and raises [IndexError] otherwise. *)
Theorem is_mine_indices (g : Minesweeper.t) (c : cell) :
  Minesweeper.well_formed g →
  Minesweeper.is_mine g c
  = if decide (- Minesweeper.height g ≤ c.1 < Minesweeper.height g
               ∧ - Minesweeper.width g ≤ c.2 < Minesweeper.width g)
    then Minesweeper.board_at g
           (c.1 `mod` Minesweeper.height g, c.2 `mod` Minesweeper.width g)
    else None.
Proof.
  intros Hwf. pose proof Hwf as [Hlen Hrows].
  unfold Minesweeper.is_mine, Minesweeper.board_at. simpl.
  rewrite py_index_range, Hlen.
  destruct (decide (0 ≤ Minesweeper.height g)) as [Hh|Hh]; cycle 1.
  { rewrite !decide_False; [done|lia|lia]. }
  rewrite Z2Nat.id by done.
  destruct (decide (- Minesweeper.height g ≤ c.1 < Minesweeper.height g))
    as [Hi|Hi]; cycle 1.
  { rewrite decide_False; [done|tauto]. }
  assert (0 ≤ c.1 `mod` Minesweeper.height g < Minesweeper.height g) as Hmod
    by (apply Z.mod_pos_bound; lia).
  destruct (row_lookup g _ Hwf Hmod) as (row & Hrow & Hrowlen).
  rewrite Hrow. simpl. rewrite py_index_range, Hrowlen.
  destruct (decide (0 ≤ Minesweeper.width g)) as [Hw|Hw]; cycle 1.
  { rewrite !decide_False; [done|lia|lia]. }
  rewrite Z2Nat.id by done.
  destruct (decide (- Minesweeper.width g ≤ c.2 < Minesweeper.width g))
    as [Hj|Hj].
  - by rewrite decide_True.
  - rewrite decide_False; [done|tauto].
Qed.

(** The theorem at the board of 2 rows and 2 columns with one mine in the
    last row and column, read with the indices [(-1, -1)]. *)
Lemma is_mine_indices_witness :
  let g := Minesweeper.mk 2 2 [[false; false]; [false; true]] in
  Minesweeper.well_formed g
  ∧ Minesweeper.is_mine g (-1, -1)
    = if decide (- Minesweeper.height g ≤ (-1, -1).1 < Minesweeper.height g
                 ∧ - Minesweeper.width g ≤ (-1, -1).2
                   < Minesweeper.width g)
      then Minesweeper.board_at g
             ((-1, -1).1 `mod` Minesweeper.height g,
              (-1, -1).2 `mod` Minesweeper.width g)
      else None.
Proof.
  intros g.
  assert (Minesweeper.well_formed g) as Hwf.
  { split; [reflexivity|]. repeat constructor. }
  split; [exact Hwf|]. exact (is_mine_indices g (-1, -1) Hwf).
Defined.

(** ** Counting the neighbours that are mines *)

Lemma nearby_fold_total (g : Minesweeper.t) (c : cell) (l : list cell)
      (a : Z) :
  Minesweeper.well_formed g →
  is_Some (foldl (Minesweeper.nearby_step g c) (Some a) l).
Proof.
  intros Hwf. revert a. induction l as [|x l IH]; intros a; simpl; [done|].
  case_bool_decide; [apply IH|].
  destruct (in_bounds _ _ x) eqn:Hin; [|apply IH].
  destruct (board_at_in_bounds g x Hwf Hin) as [b ->]. simpl. apply IH.
Qed.

Lemma window_neighbours (c : cell) :
  (length (filter (λ ij, ij ≠ c) (window c)) ≤ 8)%nat.
Proof.
  assert (length (window c) = 9%nat) as Hlen by done.
  assert (c ∈ window c) as Hc by (apply elem_of_window; lia).
  pose proof (length_filter_lt (λ ij, ij ≠ c) (window c) c Hc) as Hlt.
  rewrite Hlen in Hlt. apply Nat.lt_succ_r, Hlt. by intros ?.
Qed.

(** X13: on a board of [height] rows of [width] entries, [nearby_mines]
    returns for every cell, on or off the board, the number of cells at
    distance one that are on the board and hold a mine; the cell itself is
    not counted, and the result lies between 0 and 8. *)
Theorem nearby_mines_counts (g : Minesweeper.t) (c : cell) :
  Minesweeper.well_formed g →
  ∃ n, Minesweeper.nearby_mines g c = Some n
       ∧ n = Z.of_nat
               (size (filter (hidden_mine g)
                        (list_to_set (window c) ∖ {[c]} : gset cell)))
       ∧ 0 ≤ n ≤ 8.
Proof.
  intros Hwf. unfold Minesweeper.nearby_mines.
  destruct (nearby_fold_total g c (window c) 0 Hwf) as [n Hn].
  exists n. split; [done|].
  apply nearby_fold_count in Hn. rewrite Z.add_0_l in Hn.
  assert (filter (hidden_mine g)
            (list_to_set (window c) ∖ {[c]} : gset cell)
          = list_to_set
              (filter (λ ij, ij ≠ c ∧ hidden_mine g ij) (window c)))
    as ->.
  { apply set_eq. intros x.
    rewrite elem_of_filter, elem_of_difference, !elem_of_list_to_set,
      list_elem_of_filter, elem_of_singleton. tauto. }
  rewrite size_list_to_set by apply NoDup_filter, NoDup_window.
  split; [done|]. split; [lia|].
  pose proof (window_neighbours c) as H8.
  assert (length (filter (λ ij, ij ≠ c ∧ hidden_mine g ij) (window c))
          ≤ length (filter (λ ij, ij ≠ c) (window c)))%nat; [|lia].
  clear. induction (window c) as [|x l IH]; [done|].
  rewrite !filter_cons. repeat case_decide; simpl; try lia; tauto.
Qed.

(** The theorem at the middle cell of the board of 3 rows and 3 columns
    with mines in the last column and in the middle. *)
Lemma nearby_mines_counts_witness :
  let g := Minesweeper.mk 3 3
             [[false; false; true]; [false; true; true];
              [false; false; true]] in
  Minesweeper.well_formed g
  ∧ ∃ n, Minesweeper.nearby_mines g (1, 1) = Some n
         ∧ n = Z.of_nat
                 (size (filter (hidden_mine g)
                          (list_to_set (window (1, 1)) ∖ {[(1, 1)]}
                           : gset cell)))
         ∧ 0 ≤ n ≤ 8.
Proof.
  intros g.
  assert (Minesweeper.well_formed g) as Hwf.
  { split; [reflexivity|]. repeat constructor. }
  split; [exact Hwf|]. exact (nearby_mines_counts g (1, 1) Hwf).
Defined.

(** ** Building the board *)

Lemma foldl_snoc {A B} (x : A) (l : list B) (acc : list A) :
  foldl (λ acc _, acc ++ [x]) acc l = acc ++ replicate (length l) x.
Proof.
  revert acc. induction l as [|y l IH]; intros acc; simpl.
  - by rewrite app_nil_r.
  - rewrite IH. by rewrite <- (assoc_L (++)).
Qed.

Lemma empty_row_replicate (w : Z) :
  Minesweeper.empty_row w = replicate (Z.to_nat w) false.
Proof.
  unfold Minesweeper.empty_row. by rewrite foldl_snoc, length_seqZ.
Qed.

Lemma empty_board_replicate (h w : Z) :
  Minesweeper.empty_board h w
  = replicate (Z.to_nat h) (replicate (Z.to_nat w) false).
Proof.
  unfold Minesweeper.empty_board.
  by rewrite foldl_snoc, length_seqZ, empty_row_replicate.
Qed.

Lemma in_bounds_iff (h w : Z) (c : cell) :
  in_bounds h w c = true ↔ 0 ≤ c.1 < h ∧ 0 ≤ c.2 < w.
Proof.
  unfold in_bounds. by rewrite andb_true_iff, !bool_decide_eq_true.
Qed.

Lemma board_holds_empty (h w : Z) :
  board_holds h w (Minesweeper.empty_board h w) ∅.
Proof.
  rewrite empty_board_replicate. split_and!.
  - split; simpl; [by rewrite length_replicate|].
    apply Forall_replicate. by rewrite length_replicate.
  - set_solver.
  - intros c [Hi Hj]%in_bounds_iff.
    unfold Minesweeper.board_at. simpl.
    rewrite lookup_replicate_2 by lia. simpl.
    rewrite lookup_replicate_2 by lia.
    by rewrite bool_decide_eq_false_2 by set_solver.
Qed.

Lemma board_holds_read (h w : Z) (board : list (list bool))
      (placed : gset cell) (ij : cell) :
  board_holds h w board placed → in_bounds h w ij = true →
  ∃ row, Minesweeper.py_index board ij.1 = Some row
         ∧ board !! Z.to_nat ij.1 = Some row
         ∧ length row = Z.to_nat w
         ∧ Minesweeper.py_index row ij.2
           = Some (bool_decide (ij ∈ placed)).
Proof.
  intros (Hwf & Hon & Hat) Hin. pose proof Hin as [Hi Hj]%in_bounds_iff.
  destruct (row_lookup _ ij.1 Hwf Hi) as (row & Hrow & Hlen).
  simpl in *. exists row. rewrite !py_index_nonneg by lia.
  split_and!; try done.
  specialize (Hat ij Hin). unfold Minesweeper.board_at in Hat.
  simpl in Hat. by rewrite Hrow in Hat.
Qed.

Lemma board_holds_place (h w : Z) (board : list (list bool))
      (placed : gset cell) (ij : cell) (row : list bool) :
  board_holds h w board placed → in_bounds h w ij = true →
  board !! Z.to_nat ij.1 = Some row →
  board_holds h w
    (<[Z.to_nat ij.1 := <[Z.to_nat ij.2 := true]> row]> board)
    ({[ij]} ∪ placed).
Proof.
  intros (Hwf & Hon & Hat) Hin Hrow.
  pose proof Hin as [Hi Hj]%in_bounds_iff.
  destruct Hwf as [Hlen Hrows]. simpl in *.
  assert (length row = Z.to_nat w) as Hrowlen
    by (by eapply Forall_lookup_1 in Hrows).
  split_and!.
  - split; simpl; [by rewrite length_insert|].
    apply Forall_insert; [done|]. by rewrite length_insert.
  - intros c [->%elem_of_singleton|Hc]%elem_of_union; auto.
  - intros c Hc. pose proof Hc as [Hci Hcj]%in_bounds_iff.
    specialize (Hat c Hc). unfold Minesweeper.board_at in *. simpl in *.
    destruct (decide (c.1 = ij.1)) as [Heq1|Hne1].
    + rewrite Heq1 in *. rewrite list_lookup_insert_eq by lia. simpl.
      rewrite Hrow in Hat. simpl in Hat.
      destruct (decide (c.2 = ij.2)) as [Heq2|Hne2].
      * rewrite Heq2. rewrite list_lookup_insert_eq by lia.
        rewrite bool_decide_eq_true_2; [done|].
        destruct c, ij. simpl in *. subst. set_solver.
      * rewrite list_lookup_insert_ne by lia. rewrite Hat. f_equal.
        apply bool_decide_ext.
        assert (c ≠ ij) by (intros ->; done). set_solver.
    + rewrite list_lookup_insert_ne by lia. rewrite Hat. f_equal.
      apply bool_decide_ext.
      assert (c ≠ ij) by (intros ->; done). set_solver.
Qed.

Lemma add_mines_holds (h w n : Z) (draws : list cell)
      (board : list (list bool)) (placed : gset cell) :
  board_holds h w board placed →
  Forall (λ c, in_bounds h w c = true) draws →
  match Minesweeper.add_mines h w n draws board placed with
  | Minesweeper.Returned (board', placed') =>
      board_holds h w board' placed' ∧ Z.of_nat (size placed') = n
  | Minesweeper.MoreDraws => 0 < h ∧ 0 < w
  | Minesweeper.ValueError => h ≤ 0 ∨ w ≤ 0
  | Minesweeper.IndexError => False
  end.
Proof.
  intros Hholds Hdraws. revert board placed Hholds.
  induction Hdraws as [|ij draws Hin _ IH]; intros board placed Hholds;
    simpl.
  - repeat case_decide; try done. lia.
  - case_decide as Hn; [done|]. case_decide as Hhw; [done|].
    destruct (board_holds_read h w board placed ij Hholds Hin)
      as (row & Hpy & Hrow & Hlen & Hread).
    pose proof Hin as [Hi Hj]%in_bounds_iff.
    rewrite Hpy. simpl. rewrite Hread.
    case_bool_decide as Hplaced; [by apply IH|].
    rewrite py_assign_nonneg by lia. simpl.
    rewrite py_assign_nonneg
      by (destruct Hholds as [[Hl _] _]; simpl in Hl; lia).
    apply IH. by apply board_holds_place.
Qed.

Lemma length_bind_const {A B} (f : A → list B) (l : list A) (m : nat) :
  (∀ x, length (f x) = m) → length (l ≫= f) = (length l * m)%nat.
Proof.
  intros Hf. induction l as [|x l IH]; csimpl; [done|].
  by rewrite length_app, Hf, IH.
Qed.

Lemma length_board_cells (h w : Z) :
  length (board_cells h w) = (Z.to_nat h * Z.to_nat w)%nat.
Proof.
  unfold board_cells.
  rewrite (length_bind_const _ _ (Z.to_nat w)), length_seqZ; [done|].
  intros i. rewrite (length_bind_const _ _ 1%nat), length_seqZ; [lia|done].
Qed.

Lemma elem_of_board_cells (h w : Z) (c : cell) :
  c ∈ board_cells h w ↔ in_bounds h w c = true.
Proof.
  rewrite in_bounds_iff. unfold board_cells. rewrite list_elem_of_bind.
  split.
  - intros (i & (j & ->%list_elem_of_singleton & Hj)%list_elem_of_bind & Hi).
    apply elem_of_seqZ in Hi, Hj. simpl. lia.
  - intros [Hi Hj]. exists c.1. split; [|apply elem_of_seqZ; lia].
    apply list_elem_of_bind. exists c.2. split; [|apply elem_of_seqZ; lia].
    destruct c. simpl. left.
Qed.

Lemma size_list_to_set_le_length (l : list cell) :
  (size (list_to_set l : gset cell) ≤ length l)%nat.
Proof.
  induction l as [|x l IH]; [done|].
  rewrite list_to_set_cons, size_union_alt, size_singleton. simpl.
  assert (size (list_to_set l ∖ {[x]} : gset cell)
          ≤ size (list_to_set l : gset cell))%nat
    by (apply subseteq_size; set_solver).
  lia.
Qed.

Lemma size_placed (h w : Z) (board : list (list bool)) (placed : gset cell) :
  board_holds h w board placed →
  (size placed ≤ Z.to_nat h * Z.to_nat w)%nat.
Proof.
  intros (_ & Hon & _). rewrite <- length_board_cells.
  etrans; [|apply (size_list_to_set_le_length (board_cells h w))].
  apply subseteq_size. intros c Hc.
  apply elem_of_list_to_set, elem_of_board_cells. auto.
Qed.

(** X14: when [__init__] returns, with draws that lie on the board as
    [random.randrange] gives them, the board has [height] rows of [width]
    entries, [mines] holds exactly the requested number of cells, an entry
    of the board is [True] exactly at the cells of [mines] (so [is_mine]
    answers membership in [mines] for a cell on the board), [mines_found]
    is empty, and the game counts as won only if no mine was requested. *)
Theorem init_builds (h w n : Z) (draws : list cell) (gm : Minesweeper.game) :
  Forall (λ c, in_bounds h w c = true) draws →
  Minesweeper.init h w n draws = Minesweeper.Returned gm →
  Minesweeper.height (Minesweeper.grid gm) = h
  ∧ Minesweeper.width (Minesweeper.grid gm) = w
  ∧ Minesweeper.well_formed (Minesweeper.grid gm)
  ∧ Z.of_nat (size (Minesweeper.mines gm)) = n
  ∧ Minesweeper.mines_found gm = ∅
  ∧ (∀ c, c ∈ Minesweeper.mines gm ↔ hidden_mine (Minesweeper.grid gm) c)
  ∧ (∀ c, in_bounds h w c = true →
          Minesweeper.is_mine (Minesweeper.grid gm) c
          = Some (bool_decide (c ∈ Minesweeper.mines gm)))
  ∧ Minesweeper.won gm = bool_decide (n = 0).
Proof.
  intros Hdraws Hinit. unfold Minesweeper.init in Hinit.
  pose proof (add_mines_holds h w n draws _ ∅ (board_holds_empty h w) Hdraws)
    as Hholds.
  destruct (Minesweeper.add_mines _ _ _ _ _ _) as [[board placed]| | |];
    try done.
  injection Hinit as <-. destruct Hholds as [(Hwf & Hon & Hat) Hsize].
  simpl. split_and!; try done.
  - intros c. unfold hidden_mine. simpl. split.
    + intros Hc. split; [auto|].
      rewrite (Hat c (Hon c Hc)). by rewrite bool_decide_eq_true_2.
    + intros [Hin Hc]. rewrite (Hat c Hin) in Hc.
      injection Hc as Hc. by apply bool_decide_eq_true in Hc.
  - intros c Hin. pose proof Hin as [Hi Hj]%in_bounds_iff.
    rewrite <- (Hat c Hin).
    unfold Minesweeper.is_mine, Minesweeper.board_at. simpl.
    rewrite py_index_nonneg by lia.
    destruct (board !! Z.to_nat c.1) as [row|]; simpl; [|done].
    by rewrite py_index_nonneg by lia.
  - unfold Minesweeper.won. simpl. apply bool_decide_ext. split.
    + intros <-. rewrite size_empty in Hsize. lia.
    + intros ->. symmetry. apply leibniz_equiv, size_empty_inv. lia.
Qed.

(** The theorem at a board of 2 rows and 2 columns with 2 mines, when the
    cell [(0, 0)] is drawn twice and then the cell [(1, 1)]. *)
Lemma init_builds_witness :
  let draws := [(0, 0); (0, 0); (1, 1)] in
  let gm := Minesweeper.mk_game
              (Minesweeper.mk 2 2 [[true; false]; [false; true]])
              {[(0, 0); (1, 1)]} ∅ in
  Forall (λ c, in_bounds 2 2 c = true) draws
  ∧ Minesweeper.init 2 2 2 draws = Minesweeper.Returned gm
  ∧ Minesweeper.height (Minesweeper.grid gm) = 2
  ∧ Minesweeper.width (Minesweeper.grid gm) = 2
  ∧ Minesweeper.well_formed (Minesweeper.grid gm)
  ∧ Z.of_nat (size (Minesweeper.mines gm)) = 2
  ∧ Minesweeper.mines_found gm = ∅
  ∧ (∀ c, c ∈ Minesweeper.mines gm ↔ hidden_mine (Minesweeper.grid gm) c)
  ∧ (∀ c, in_bounds 2 2 c = true →
          Minesweeper.is_mine (Minesweeper.grid gm) c
          = Some (bool_decide (c ∈ Minesweeper.mines gm)))
  ∧ Minesweeper.won gm = bool_decide (2 = 0).
Proof.
  intros draws gm.
  assert (Forall (λ c, in_bounds 2 2 c = true) draws) as Hdraws
    by (repeat constructor).
  assert (Minesweeper.init 2 2 2 draws = Minesweeper.Returned gm) as Hinit
    by (vm_compute; reflexivity).
  split; [exact Hdraws|]. split; [exact Hinit|].
  exact (init_builds 2 2 2 draws gm Hdraws Hinit).
Defined.

Lemma add_mines_unmet (h w n : Z) (draws : list cell)
      (board : list (list bool)) (placed : gset cell) :
  board_holds h w board placed →
  Forall (λ c, in_bounds h w c = true) draws →
  0 < h → 0 < w → n < 0 ∨ h * w < n →
  Minesweeper.add_mines h w n draws board placed = Minesweeper.MoreDraws.
Proof.
  intros Hholds Hdraws Hh Hw Hn. revert board placed Hholds.
  induction Hdraws as [|ij draws Hin _ IH]; intros board placed Hholds;
    simpl.
  - pose proof (size_placed h w board placed Hholds).
    rewrite decide_False by nia. by rewrite decide_False by lia.
  - pose proof (size_placed h w board placed Hholds).
    rewrite decide_False by nia. rewrite decide_False by lia.
    destruct (board_holds_read h w board placed ij Hholds Hin)
      as (row & Hpy & Hrow & Hlen & Hread).
    pose proof Hin as [Hi Hj]%in_bounds_iff.
    rewrite Hpy. simpl. rewrite Hread.
    case_bool_decide as Hplaced; [by apply IH|].
    rewrite py_assign_nonneg by lia. simpl.
    rewrite py_assign_nonneg
      by (destruct Hholds as [[Hl _] _]; simpl in Hl; lia).
    apply IH. by apply board_holds_place.
Qed.

(** X15: [__init__] does not return when it is asked for a negative number
    of mines or for more mines than the board has cells
    ([max(0, height) * max(0, width)]): on a board with
    cells the loop is still running after every finite list of draws, and
    on a board without cells the first draw raises [ValueError]. *)
Theorem init_cannot_place (h w n : Z) (draws : list cell) :
  Forall (λ c, in_bounds h w c = true) draws →
  n < 0 ∨ Z.max 0 h * Z.max 0 w < n →
  Minesweeper.init h w n draws
  = if decide (0 < h ∧ 0 < w) then Minesweeper.MoreDraws
    else Minesweeper.ValueError.
Proof.
  intros Hdraws Hn. unfold Minesweeper.init.
  case_decide as Hhw.
  - destruct Hhw as [Hh Hw].
    rewrite (add_mines_unmet h w n draws _ ∅ (board_holds_empty h w));
      [done..|].
    rewrite !Z.max_r in Hn by lia. done.
  - assert (n ≠ 0) as Hn0.
    { assert (Z.max 0 h * Z.max 0 w = 0); [|lia].
      destruct (decide (0 < h)); [rewrite (Z.max_l 0 w) by lia|
                                  rewrite (Z.max_l 0 h) by lia]; lia. }
    assert (Minesweeper.add_mines h w n draws
              (Minesweeper.empty_board h w) ∅ = Minesweeper.ValueError)
      as ->; [|done].
    assert (Z.of_nat (size (∅ : gset cell)) ≠ n) as Hsize
      by (rewrite size_empty; lia).
    destruct draws; simpl; rewrite (decide_False _ _ Hsize);
      rewrite decide_True by lia; done.
Qed.

(** The theorem at a board of 1 row and 2 columns that is asked for 3
    mines and draws both cells. *)
Lemma init_cannot_place_witness :
  let draws := [(0, 0); (0, 1); (0, 0)] in
  Forall (λ c, in_bounds 1 2 c = true) draws
  ∧ (3 < 0 ∨ Z.max 0 1 * Z.max 0 2 < 3)
  ∧ Minesweeper.init 1 2 3 draws
    = if decide (0 < 1 ∧ 0 < 2) then Minesweeper.MoreDraws
      else Minesweeper.ValueError.
Proof.
  intros draws.
  assert (Forall (λ c, in_bounds 1 2 c = true) draws) as Hdraws
    by (repeat constructor).
  assert (3 < 0 ∨ Z.max 0 1 * Z.max 0 2 < 3) as Hn by (right; reflexivity).
  split; [exact Hdraws|]. split; [exact Hn|].
  exact (init_cannot_place 1 2 3 draws Hdraws Hn).
Defined.

Lemma add_mines_returns (h w n : Z) (draws : list cell)
      (board : list (list bool)) (placed : gset cell) :
  board_holds h w board placed →
  Forall (λ c, in_bounds h w c = true) draws →
  Z.of_nat (size placed) ≤ n →
  n ≤ Z.of_nat (size (placed ∪ list_to_set draws)) →
  ∃ res, Minesweeper.add_mines h w n draws board placed
         = Minesweeper.Returned res.
Proof.
  intros Hholds Hdraws. revert board placed Hholds.
  induction Hdraws as [|ij draws Hin _ IH];
    intros board placed Hholds Hlo Hhi; simpl.
  - rewrite decide_True; [by eexists|].
    replace (placed ∪ list_to_set []) with placed in Hhi by set_solver.
    lia.
  - case_decide as Hn; [by eexists|].
    pose proof Hin as [Hi Hj]%in_bounds_iff.
    rewrite decide_False by lia.
    destruct (board_holds_read h w board placed ij Hholds Hin)
      as (row & Hpy & Hrow & Hlen & Hread).
    rewrite Hpy. simpl. rewrite Hread.
    case_bool_decide as Hplaced.
    + apply IH; [done|done|].
      replace (placed ∪ list_to_set draws)
        with (placed ∪ list_to_set (ij :: draws)); [done|].
      simpl. set_solver.
    + rewrite py_assign_nonneg by lia. simpl.
      rewrite py_assign_nonneg
        by (destruct Hholds as [[Hl _] _]; simpl in Hl; lia).
      apply IH; [by apply board_holds_place| |].
      * rewrite size_union, size_singleton by set_solver. lia.
      * replace ({[ij]} ∪ placed ∪ list_to_set draws)
          with (placed ∪ list_to_set (ij :: draws)); [done|].
        simpl. set_solver.
Qed.

(** X16: [__init__] returns as soon as the draws have hit as many different
    cells as mines were requested: for every list of draws on the board
    that holds at least [mines] different cells, with [mines] not negative,
    the loop ends within the list. *)
Theorem init_returns (h w n : Z) (draws : list cell) :
  Forall (λ c, in_bounds h w c = true) draws →
  0 ≤ n ≤ Z.of_nat (size (list_to_set draws : gset cell)) →
  ∃ gm, Minesweeper.init h w n draws = Minesweeper.Returned gm.
Proof.
  intros Hdraws [Hlo Hhi]. unfold Minesweeper.init.
  destruct (add_mines_returns h w n draws _ ∅ (board_holds_empty h w) Hdraws)
    as [[board placed] ->].
  - rewrite size_empty. lia.
  - by rewrite (left_id_L ∅ (∪)).
  - by eexists.
Qed.

(** The theorem at a board of 2 rows and 2 columns with 2 mines and three
    draws, two of them of the same cell. *)
Lemma init_returns_witness :
  let draws := [(0, 0); (0, 0); (1, 1)] in
  Forall (λ c, in_bounds 2 2 c = true) draws
  ∧ 0 ≤ 2 ≤ Z.of_nat (size (list_to_set draws : gset cell))
  ∧ ∃ gm, Minesweeper.init 2 2 2 draws = Minesweeper.Returned gm.
Proof.
  intros draws.
  assert (Forall (λ c, in_bounds 2 2 c = true) draws) as Hdraws
    by (repeat constructor).
  assert (0 ≤ 2 ≤ Z.of_nat (size (list_to_set draws : gset cell))) as Hn
    by (vm_compute; split; discriminate).
  split; [exact Hdraws|]. split; [exact Hn|].
  exact (init_returns 2 2 2 draws Hdraws Hn).
Defined.

(** * Sentences *)

(** X17: a sentence is reported by [known_mines] and by [known_safes] at
    the same time only when it has no cells and count [0]; a sentence with
    cells is never both all mines and all safe. *)
Theorem known_mines_and_safes (s : Sentence.t) :
  (is_Some (Sentence.known_mines s) ∧ is_Some (Sentence.known_safes s))
  ↔ (Sentence.cells s = ∅ ∧ Sentence.count s = 0).
Proof.
  unfold Sentence.known_mines, Sentence.known_safes. simpl. split.
  - intros [[X HX] [Y HY]]. repeat case_decide; try done.
    split; [|done]. apply leibniz_equiv, size_empty_inv. lia.
  - intros [Hcells ->]. rewrite Hcells, size_empty.
    rewrite !decide_True by done. eauto.
Qed.

(** X18: [Sentence.mark_mine] and [Sentence.mark_safe] take out the cell
    and nothing else.  [mark_mine] lowers the count with the number of
    cells, so the number of cells that are not mines, [|cells| - count],
    stays the same; [mark_safe] keeps the count; and neither changes a
    sentence that does not hold the cell. *)
Theorem sentence_marks (c : cell) (s : Sentence.t) :
  Sentence.cells (Sentence.mark_mine c s) = Sentence.cells s ∖ {[c]}
  ∧ Sentence.cells (Sentence.mark_safe c s) = Sentence.cells s ∖ {[c]}
  ∧ Z.of_nat (size (Sentence.cells (Sentence.mark_mine c s)))
    - Sentence.count (Sentence.mark_mine c s)
    = Z.of_nat (size (Sentence.cells s)) - Sentence.count s
  ∧ Sentence.count (Sentence.mark_safe c s) = Sentence.count s
  ∧ ((c ∉ Sentence.cells s) ↔ Sentence.mark_mine c s = s)
  ∧ ((c ∉ Sentence.cells s) ↔ Sentence.mark_safe c s = s).
Proof.
  split_and!.
  - apply sentence_mark_mine_cells.
  - apply sentence_mark_safe_cells.
  - rewrite sentence_mark_mine_count, sentence_mark_mine_cells.
    case_decide as Hc.
    + destruct (size (Sentence.cells s)) as [|n] eqn:Hn.
      * apply size_empty_inv, leibniz_equiv in Hn. set_solver.
      * rewrite (size_pop _ c n Hc Hn). lia.
    + do 2 f_equal. f_equal. set_solver.
  - apply sentence_mark_safe_count.
  - split; [apply sentence_mark_mine_absent|].
    intros Heq Hc. apply (f_equal Sentence.cells) in Heq.
    rewrite sentence_mark_mine_cells in Heq. set_solver.
  - split; [apply sentence_mark_safe_absent|].
    intros Heq Hc. apply (f_equal Sentence.cells) in Heq.
    rewrite sentence_mark_safe_cells in Heq. set_solver.
Qed.

(** * Cells off the board *)

Lemma on_board_resolved k ai : on_board ai → on_board (resolved k ai).
Proof.
  intros Hai. destruct (resolved_frame k ai) as (Hh & Hw & _).
  by apply (on_board_shrinks ai); [| |apply resolved_shrinks|].
Qed.

Lemma on_board_inferred k ai : on_board ai → on_board (inferred k ai).
Proof.
  intros Hai. destruct (inferred_frame k ai) as (Hh & Hw & _).
  by apply (on_board_shrinks ai); [| |apply inferred_shrinks|].
Qed.

Lemma confined_resolved Em Es k ai :
  confined Em Es ai → confined Em Es (resolved k ai).
Proof.
  intros (Hon & Hm & Hs).
  split; [by apply on_board_resolved|].
  unfold resolved. destruct (knowledge ai !! k) as [e|] eqn:He; [|done].
  pose proof (Hon e (list_elem_of_lookup_2 _ _ _ He)) as Hcells.
  repeat case_decide; simpl; [| |done].
  - split; [done|]. intros x [?|?]%elem_of_union; auto.
  - split; [|done]. intros x [?|?]%elem_of_union; auto.
Qed.

Lemma confined_inferred Em Es k ai :
  confined Em Es ai → confined Em Es (inferred k ai).
Proof.
  intros (Hon & Hm & Hs).
  split; [by apply on_board_inferred|].
  unfold inferred. destruct (knowledge ai !! k) as [e|] eqn:He; [|done].
  pose proof (Hon e (list_elem_of_lookup_2 _ _ _ He)) as Hcells.
  repeat case_decide; simpl; [done| |done].
  split; [done|]. intros x [Hx|?]%elem_of_union; [|auto].
  left. apply Hcells. set_solver.
Qed.

Lemma confined_mono Em Es Em' Es' ai :
  Em ⊆ Em' → Es ⊆ Es' → confined Em Es ai → confined Em' Es' ai.
Proof.
  intros HEm HEs (Hon & Hm & Hs). split_and!; [done| |].
  - intros x Hx. destruct (Hm x Hx); auto.
  - intros x Hx. destruct (Hs x Hx); auto.
Qed.

Lemma confined_stepped Em Es o ai :
  confined Em Es ai →
  confined (Em ∪ mine_arguments [o]) (Es ∪ safe_arguments [o])
           (stepped o ai).
Proof.
  intros Hai. pose proof Hai as (Hon & Hm & Hs).
  destruct o as [c count|c|c| |]; simpl.
  - unfold knowledge_added, inferred_all, resolved_all.
    apply foldl_invariant; [intros; by apply confined_inferred|].
    apply foldl_invariant; [intros; by apply confined_resolved|].
    split_and!.
    + apply (on_board_stepped (MarkSafe c)) in Hon as Hon'.
      intros s' [Hs'|Hs']%elem_of_app x Hx; simpl in *.
      * by apply (Hon' s').
      * apply list_elem_of_singleton in Hs' as ->. simpl in Hx.
        by apply elem_of_mangoes in Hx as (_ & _ & _ & _ & Hin).
    + simpl. intros x Hx. destruct (Hm x Hx); set_solver.
    + simpl. unfold safe_arguments. simpl.
      intros x [->%elem_of_singleton|Hx]%elem_of_union; [set_solver|].
      destruct (Hs x Hx); set_solver.
  - split_and!; simpl.
    + by apply (on_board_stepped (MarkSafe c)).
    + intros x Hx. destruct (Hm x Hx); set_solver.
    + unfold safe_arguments. simpl.
      intros x [->%elem_of_singleton|Hx]%elem_of_union; [set_solver|].
      destruct (Hs x Hx); set_solver.
  - split_and!; simpl.
    + by apply (on_board_stepped (MarkMine c)).
    + unfold mine_arguments. simpl.
      intros x [->%elem_of_singleton|Hx]%elem_of_union; [set_solver|].
      destruct (Hm x Hx); set_solver.
    + intros x Hx. destruct (Hs x Hx); set_solver.
  - eapply confined_mono; [| |done]; set_solver.
  - eapply confined_mono; [| |done]; set_solver.
Qed.

Lemma confined_ran Em Es ops ai :
  confined Em Es ai →
  confined (Em ∪ mine_arguments ops) (Es ∪ safe_arguments ops) (ran ops ai).
Proof.
  unfold ran. revert Em Es ai.
  induction ops as [|o ops IH]; intros Em Es ai Hai; simpl.
  { eapply confined_mono; [| |done]; set_solver. }
  apply (confined_stepped _ _ o), IH in Hai.
  eapply confined_mono; [| |exact Hai].
  - unfold mine_arguments. destruct o; simpl; set_solver.
  - unfold safe_arguments. destruct o; simpl; set_solver.
Qed.

(** X19: the solver marks no cell off the board by itself: after every
    sequence of calls on a new solver, a cell of [mines] lies on the board
    or was passed to [mark_mine], and a cell of [safes] lies on the board or
    was passed to [add_knowledge] or [mark_safe]. *)
Theorem marks_stay_on_board `{SetPop} (ops : list op) (h w : Z) :
  ∃ ai, run ops (init h w) = Some ai
        ∧ (∀ x, x ∈ mines ai →
                in_bounds h w x = true ∨ x ∈ mine_arguments ops)
        ∧ (∀ x, x ∈ safes ai →
                in_bounds h w x = true ∨ x ∈ safe_arguments ops).
Proof.
  eexists. split; [apply run_ran|].
  assert (confined ∅ ∅ (init h w)) as Hinit.
  { split_and!; [|set_solver..]. intros s Hs. by apply elem_of_nil in Hs. }
  apply (confined_ran _ _ ops) in Hinit as (_ & Hm & Hs).
  destruct (ran_frame ops (init h w)) as (Hh & Hw & _).
  rewrite Hh, Hw in *. simpl in *.
  split; intros x Hx; [destruct (Hm x Hx)|destruct (Hs x Hx)]; set_solver.
Qed.

(** * The sentence that [add_knowledge] appends *)

Lemma all_safe_empty ai : all_safe ∅ ai = ai.
Proof.
  apply ai_eq; simpl; try done; [set_solver|].
  apply fmap_sentences_id. intros s _.
  apply sentence_eq; simpl; [set_solver|done].
Qed.

Lemma resolved_idle k a :
  (∀ s, knowledge a !! k = Some s → idle (mines a) s) → resolved k a = a.
Proof.
  intros Hidle. unfold resolved.
  destruct (knowledge a !! k) as [s|] eqn:Hs; [|done].
  destruct (Hidle s eq_refl) as [Hempty|(H0 & Hall & _)].
  - rewrite Hempty, size_empty. case_decide; [apply all_safe_empty|].
    by rewrite decide_False.
  - by rewrite !decide_False.
Qed.

Lemma inferred_idle k a :
  (∀ s, knowledge a !! k = Some s → idle (mines a) s) → inferred k a = a.
Proof.
  intros Hidle. unfold inferred, known_in.
  destruct (knowledge a !! k) as [s|] eqn:Hs; [|done].
  destruct (Hidle s eq_refl) as [Hempty|(_ & _ & Hknown)].
  - rewrite Hempty, size_empty. by rewrite decide_True.
  - case_decide; [done|]. by rewrite decide_False.
Qed.

Lemma foldl_idle (f : nat → t → t) (ks : list nat) a :
  (∀ k, f k a = a) → foldl (λ a' k, f k a') a ks = a.
Proof.
  intros Hf. induction ks as [|k ks IH]; simpl; [done|]. by rewrite Hf.
Qed.

Lemma knowledge_added_idle c count ai :
  Forall (idle (mines ai))
         ((Sentence.mark_safe c <$> knowledge ai)
            ++ [Sentence.mk (mangoes ai c) count]) →
  knowledge_added c count ai = observed c count ai.
Proof.
  intros Hidle.
  assert (∀ k s, knowledge (observed c count ai) !! k = Some s →
                 idle (mines (observed c count ai)) s) as Hk.
  { intros k s Hs. simpl in *. by eapply Forall_lookup_1 in Hidle. }
  unfold knowledge_added, inferred_all, resolved_all.
  rewrite (foldl_idle resolved) by (intros; apply resolved_idle, Hk).
  apply foldl_idle. intros. apply inferred_idle, Hk.
Qed.

Lemma knowledge_added_last c count ai :
  ∃ olds s,
    knowledge (knowledge_added c count ai) = olds ++ [s]
    ∧ length olds = length (knowledge ai)
    ∧ shrinks (Sentence.mk (mangoes ai c) count) s.
Proof.
  pose proof (knowledge_added_shrinks c count ai) as Hs. simpl in Hs.
  apply Forall2_app_inv_l in Hs as (olds & news & Holds & Hnews & ->).
  apply Forall2_cons_inv_l in Hnews as (s & rest & Hshrinks & Hrest & ->).
  apply Forall2_nil_inv_l in Hrest as ->.
  exists olds, s. split_and!; [done| |done].
  apply Forall2_length in Holds. by rewrite <- Holds, length_fmap.
Qed.

(** C2, as the code has it: after every sequence of calls on a new solver,
    no sentence holds a cell of [safes].  The sentence that
    [add_knowledge] appends is [mangoes] with the count as it was passed:
    [mangoes] holds exactly the neighbours of the observed cell that are on
    the board and are neither moves made nor known safe, known mines among
    them included, and the count is not adjusted for them.  When no
    sentence can be resolved in the call, the call returns with exactly
    this sentence behind the old ones; in every case it returns with what
    its own loops leave of this sentence: cells taken out, the count not
    raised. *)
Theorem sentences_exclude_safes `{SetPop} :
  (∀ ops h w, ∃ ai,
      run ops (init h w) = Some ai
      ∧ ∀ s, s ∈ knowledge ai → Sentence.cells s ∩ safes ai = ∅)
  ∧ (∀ (ai : t) (c x : cell),
        x ∈ mangoes ai c
        ↔ x ∈ window c ∧ x ≠ c ∧ (x ∉ moves_made ai) ∧ (x ∉ safes ai)
          ∧ in_bounds (height ai) (width ai) x = true)
  ∧ (∀ (c : cell) (count : Z) (ai : t),
        Forall (idle (mines ai))
               ((Sentence.mark_safe c <$> knowledge ai)
                  ++ [Sentence.mk (mangoes ai c) count]) →
        add_knowledge c count ai
        = Some (mk (height ai) (width ai) ({[c]} ∪ moves_made ai)
                   (mines ai) ({[c]} ∪ safes ai)
                   ((Sentence.mark_safe c <$> knowledge ai)
                      ++ [Sentence.mk (mangoes ai c) count])))
  ∧ (∀ (c : cell) (count : Z) (ai : t),
        ∃ ai' olds s,
          add_knowledge c count ai = Some ai'
          ∧ knowledge ai' = olds ++ [s]
          ∧ length olds = length (knowledge ai)
          ∧ shrinks (Sentence.mk (mangoes ai c) count) s).
Proof.
  split_and!.
  - intros ops h w. eexists. split; [apply run_ran|].
    intros s Hs.
    pose proof (safes_folded_ran ops _ (safes_folded_init h w) s Hs).
    set_solver.
  - apply elem_of_mangoes.
  - intros c count ai Hidle.
    rewrite add_knowledge_knowledge_added.
    by rewrite (knowledge_added_idle c count ai Hidle).
  - intros c count ai.
    destruct (knowledge_added_last c count ai) as (olds & s & ? & ? & ?).
    exists (knowledge_added c count ai), olds, s.
    split_and!; [apply add_knowledge_knowledge_added|done..].
Qed.

(** The third part at a solver of 3 rows and 3 columns, after [(0, 0)] was
    observed with count 0 and [(0, 1)] with count 2: when [(1, 1)] is
    observed with count 3 no sentence can be resolved, and the call returns
    with the sentence that holds the two known mines [(0, 2)] and [(1, 2)]
    and the full count 3. *)
Lemma appended_sentence_keeps_mines `{SetPop} :
  let a := mk 3 3 {[(0, 0); (0, 1)]} {[(0, 2); (1, 2)]}
              {[(0, 0); (0, 1); (1, 0); (1, 1)]}
              [Sentence.mk ∅ 0; Sentence.mk ∅ 2] in
  run [AddKnowledge (0, 0) 0; AddKnowledge (0, 1) 2] (init 3 3) = Some a
  ∧ Forall (idle (mines a))
           ((Sentence.mark_safe (1, 1) <$> knowledge a)
              ++ [Sentence.mk (mangoes a (1, 1)) 3])
  ∧ add_knowledge (1, 1) 3 a
    = Some (mk 3 3 {[(0, 0); (0, 1); (1, 1)]} {[(0, 2); (1, 2)]}
               {[(0, 0); (0, 1); (1, 0); (1, 1)]}
               [Sentence.mk ∅ 0; Sentence.mk ∅ 2;
                Sentence.mk {[(0, 2); (1, 2); (2, 0); (2, 1); (2, 2)]} 3]).
Proof.
  intros a.
  split; [rewrite run_ran; by vm_compute|].
  assert (Forall (idle (mines a))
            ((Sentence.mark_safe (1, 1) <$> knowledge a)
               ++ [Sentence.mk (mangoes a (1, 1)) 3])) as Hidle.
  { apply (bool_decide_unpack _). vm_compute. exact I. }
  split; [exact Hidle|].
  rewrite add_knowledge_knowledge_added.
  rewrite (knowledge_added_idle _ _ _ Hidle). by vm_compute.
Qed.
